(** * The rule-based form validator of [src/pages/forms/VanillaValidation.tsx]

    A shallow embedding of [validate], of the rule table
    [registrationSchema] and of the submit handler of the registration
    form, followed by the properties the specification states about them. *)

From Stdlib Require Import String Ascii NArith ZArith Lia.
From stdpp Require Import base option list gmap.

(** ** JavaScript strings

    A JavaScript string is a sequence of UTF-16 code units; [length], the
    regular expressions (none carries the [u] flag) and [trim] all work on
    code units. *)

Abbreviation char := N.
Abbreviation jsstring := (list N).

(** Source literals are written as UTF-8 text; [utf16] turns the bytes of one
    into the code units the JavaScript literal denotes. *)
Local Open Scope N_scope.

Definition cont (b : N) : N := N.land b 63.

Fixpoint utf16 (bs : list N) : jsstring :=
  match bs with
  | [] => []
  | b1 :: rest1 =>
    if b1 <? 128 then b1 :: utf16 rest1
    else match rest1 with
    | [] => [65533]
    | b2 :: rest2 =>
      if b1 <? 224 then (N.shiftl (N.land b1 31) 6 + cont b2) :: utf16 rest2
      else match rest2 with
      | [] => [65533]
      | b3 :: rest3 =>
        if b1 <? 240
        then (N.shiftl (N.land b1 15) 12 + N.shiftl (cont b2) 6 + cont b3)
               :: utf16 rest3
        else match rest3 with
        | [] => [65533]
        | b4 :: rest4 =>
          let cp := N.shiftl (N.land b1 7) 18 + N.shiftl (cont b2) 12
                    + N.shiftl (cont b3) 6 + cont b4 - 65536 in
          (55296 + N.shiftr cp 10) :: (56320 + N.land cp 1023) :: utf16 rest4
        end
      end
    end
  end.

Definition utf16_of (s : string) : jsstring :=
  utf16 (map N_of_ascii (list_ascii_of_string s)).

Local Close Scope N_scope.

(** [js "text"] is the literal: its code units, computed where it is written. *)
Notation "'js' s" :=
  (ltac:(let v := eval vm_compute in (utf16_of s%string) in exact v))
  (at level 1, s at level 0, only parsing).

Example js_ascii : js "a@b.c" = [97; 64; 98; 46; 99]%N.
Proof. reflexivity. Qed.

Example js_cyrillic : js "Имя" = [1048; 1084; 1103]%N.
Proof. reflexivity. Qed.

(** ** Completions

    A call either returns a value or throws; a thrown exception leaves every
    enclosing loop of [validate], which has no [try]. *)

Inductive exn :=
  | TypeError
  | Thrown (payload : jsstring).

Inductive completion (A : Type) :=
  | Normal (a : A)
  | Throw (e : exn).
Arguments Normal {A} a.
Arguments Throw {A} e.

#[global] Instance completion_ret : MRet completion := @Normal.
#[global] Instance completion_bind : MBind completion := fun A B f m =>
  match m with
  | Normal a => f a
  | Throw e => Throw e
  end.

(** The value of a completion that returned, whatever was thrown otherwise. *)
Definition returned {A} (m : completion A) : option A :=
  match m with
  | Normal a => Some a
  | Throw _ => None
  end.

(** ** Values

    The values a rule can receive for [value]. The type says [string]; a
    property read [data[field]] of a key the object does not have goes on to
    [Object.prototype] and yields the member of that name, a built-in
    function or [Object.prototype] itself, or [undefined] when there is
    none. [JFunction name n] is the built-in function of that name, whose
    [length] is [n]. *)

Inductive jsval :=
  | JUndefined
  | JString (s : jsstring)
  | JFunction (name : jsstring) (arity : nat)
  | JObjectPrototype.

#[global] Instance jsval_eq_dec : EqDecision jsval.
Proof. solve_decision. Defined.

(** [ToString], applied by [RegExp.prototype.test] to its argument. The text
    of a built-in function is the engine's own, in the form of a
    NativeFunction; the one of V8 is taken. *)
Definition ToString (v : jsval) : jsstring :=
  match v with
  | JUndefined => js "undefined"
  | JString s => s
  | JFunction name _ => js "function " ++ name ++ js "() { [native code] }"
  | JObjectPrototype => js "[object Object]"
  end.

(** [ToBoolean], applied by [!v]: an object is true. *)
Definition ToBoolean (v : jsval) : bool :=
  match v with
  | JUndefined => false
  | JString [] => false
  | JString (_ :: _) => true
  | JFunction _ _ => true
  | JObjectPrototype => true
  end.

(** [v.length]: reading a property of [undefined] throws a TypeError, and
    [Object.prototype] has no such property, so the read yields [undefined],
    written [None]. *)
Definition length_of (v : jsval) : completion (option nat) :=
  match v with
  | JUndefined => Throw TypeError
  | JString s => Normal (Some (length s))
  | JFunction _ arity => Normal (Some arity)
  | JObjectPrototype => Normal None
  end.

(** [x > n] and [x >= n] for the result [x] of such a read: [undefined]
    converts to NaN, and every comparison with NaN is false. *)
Definition gt (x : option nat) (n : nat) : bool :=
  match x with
  | Some m => n <? m
  | None => false
  end.

Definition geq (x : option nat) (n : nat) : bool :=
  match x with
  | Some m => n <=? m
  | None => false
  end.

(** [v === w] on these values; a built-in function is told by its name. *)
Definition strict_eq (v w : jsval) : bool := bool_decide (v = w).

(** *** Character classes *)

(** The code unit of a one-character literal, written [chr "c"]. *)
Definition code (s : string) : char :=
  match utf16_of s with
  | [c] => c
  | _ => 0%N
  end.

Notation "'chr' s" :=
  (ltac:(let v := eval vm_compute in (code s%string) in exact v))
  (at level 1, s at level 0, only parsing).

Definition is_char (c0 c : char) : bool := (c =? c0)%N.

(** A class range such as [a-z]. *)
Definition in_range (lo hi c : char) : bool :=
  ((lo <=? c) && (c <=? hi))%N.

(** LineTerminator: LF, CR, LS, PS. *)
Definition is_line_terminator (c : char) : bool :=
  bool_decide (c ∈ [10; 13; 8232; 8233]%N).

(** WhiteSpace: TAB, VT, FF, ZWNBSP and the space separators. *)
Definition is_white_space (c : char) : bool :=
  bool_decide (c ∈ [9; 11; 12; 32; 160; 5760; 8239; 8287; 12288; 65279]%N)
  || in_range 8192 8202 c.

(** [\s], which is also what [trim] strips. *)
Definition is_space (c : char) : bool :=
  is_white_space c || is_line_terminator c.

(** [String.prototype.trim], from its two ends. *)
Fixpoint trimStart (s : jsstring) : jsstring :=
  match s with
  | [] => []
  | c :: rest => if is_space c then trimStart rest else s
  end.

Definition trimEnd (s : jsstring) : jsstring :=
  reverse (trimStart (reverse s)).

(** [v.trim()]: only a string has the method; calling what the read
    [v.trim] yields for an object, [undefined], throws a TypeError as the
    read itself does on [undefined]. *)
Definition trim (v : jsval) : completion jsstring :=
  match v with
  | JUndefined => Throw TypeError
  | JString s => Normal (trimEnd (trimStart s))
  | JFunction _ _ => Throw TypeError
  | JObjectPrototype => Throw TypeError
  end.

(** ** Regular expressions

    The patterns of the rule table use literals, classes, [?], [+] and the
    anchors only, so [test] is membership in a regular language; it is decided
    here by derivatives. *)

Inductive regex :=
  | Void
  | Eps
  | Class (p : char → bool)
  | Cat (r1 r2 : regex)
  | Alt (r1 r2 : regex)
  | Star (r : regex).

Definition Plus (r : regex) : regex := Cat r (Star r).
Definition Opt (r : regex) : regex := Alt r Eps.

Fixpoint seq (rs : list regex) : regex :=
  match rs with
  | [] => Eps
  | [r] => r
  | r :: rest => Cat r (seq rest)
  end.

(** A literal run of characters. *)
Fixpoint lit (cs : jsstring) : regex :=
  match cs with
  | [] => Eps
  | [c] => Class (is_char c)
  | c :: rest => Cat (Class (is_char c)) (lit rest)
  end.

(** [.] without the [s] flag: any code unit but a line terminator. *)
Definition dot : regex := Class (λ c, negb (is_line_terminator c)).

(** Any code unit at all: what an unanchored end skips over. *)
Definition any : regex := Class (λ _, true).

Fixpoint nullable (r : regex) : bool :=
  match r with
  | Void => false
  | Eps => true
  | Class _ => false
  | Cat r1 r2 => nullable r1 && nullable r2
  | Alt r1 r2 => nullable r1 || nullable r2
  | Star _ => true
  end.

Fixpoint deriv (c : char) (r : regex) : regex :=
  match r with
  | Void => Void
  | Eps => Void
  | Class p => if p c then Eps else Void
  | Cat r1 r2 =>
    if nullable r1 then Alt (Cat (deriv c r1) r2) (deriv c r2)
    else Cat (deriv c r1) r2
  | Alt r1 r2 => Alt (deriv c r1) (deriv c r2)
  | Star r1 => Cat (deriv c r1) (Star r1)
  end.

Fixpoint matches (r : regex) (s : jsstring) : bool :=
  match s with
  | [] => nullable r
  | c :: rest => matches (deriv c r) rest
  end.

(** A pattern: its body and whether [^] opens it and [$] closes it. *)
Record RegExp := {
  at_start : bool;
  body : regex;
  at_end : bool;
}.

Definition language (re : RegExp) : regex :=
  Cat (if at_start re then Eps else Star any)
      (Cat (body re) (if at_end re then Eps else Star any)).

(** [re.test(v)]; no pattern here has the [g] or [y] flag, so [test] keeps no
    [lastIndex] between calls. *)
Definition test (re : RegExp) (v : jsval) : bool :=
  matches (language re) (ToString v).

(** The language of a regular expression, to reason about [matches]. *)
Inductive Matches : regex → jsstring → Prop :=
  | MEps : Matches Eps []
  | MClass p c : p c = true → Matches (Class p) [c]
  | MCat r1 r2 s1 s2 :
      Matches r1 s1 → Matches r2 s2 → Matches (Cat r1 r2) (s1 ++ s2)
  | MAltL r1 r2 s : Matches r1 s → Matches (Alt r1 r2) s
  | MAltR r1 r2 s : Matches r2 s → Matches (Alt r1 r2) s
  | MStarNil r : Matches (Star r) []
  | MStarCons r s1 s2 :
      Matches r s1 → Matches (Star r) s2 → Matches (Star r) (s1 ++ s2).

(** ** The validator *)

(** An object is given by its own properties, which hold strings; its
    prototype is [Object.prototype], as for every object literal. *)
Abbreviation Data := (gmap jsstring jsstring).
Abbreviation Errors := (gmap jsstring jsstring).

(** The properties of [Object.prototype]: [constructor] is [Object],
    [__proto__] is an accessor whose getter returns the prototype of the
    object read, [Object.prototype] again, and the others are methods. None
    of them is enumerable. *)
Definition Object_prototype : list (jsstring * jsval) := [
  (js "constructor", JFunction (js "Object") 1);
  (js "__defineGetter__", JFunction (js "__defineGetter__") 2);
  (js "__defineSetter__", JFunction (js "__defineSetter__") 2);
  (js "hasOwnProperty", JFunction (js "hasOwnProperty") 1);
  (js "__lookupGetter__", JFunction (js "__lookupGetter__") 1);
  (js "__lookupSetter__", JFunction (js "__lookupSetter__") 1);
  (js "isPrototypeOf", JFunction (js "isPrototypeOf") 1);
  (js "propertyIsEnumerable", JFunction (js "propertyIsEnumerable") 1);
  (js "toString", JFunction (js "toString") 0);
  (js "valueOf", JFunction (js "valueOf") 0);
  (js "__proto__", JObjectPrototype);
  (js "toLocaleString", JFunction (js "toLocaleString") 0)
].

(** What a read finds on the prototype. *)
Definition inherited (field : jsstring) : jsval :=
  default JUndefined
    ((list_to_map Object_prototype : gmap jsstring jsval) !! field).

(** [data[field]]: the own property, or else the inherited one. *)
Definition get (data : Data) (field : jsstring) : jsval :=
  match data !! field with
  | Some s => JString s
  | None => inherited field
  end.

(** [obj[field] = value]: an own property is replaced and a new one is
    added, but for a new [__proto__]: that assignment reaches the setter of
    [Object.prototype], which ignores a value that is a string. *)
Definition assign (field value : jsstring) (obj : gmap jsstring jsstring)
    : gmap jsstring jsstring :=
  if decide (field = js "__proto__") then
    match obj !! field with
    | Some _ => <[field := value]> obj
    | None => obj
    end
  else <[field := value]> obj.

(** [interface ValidationRule<T>]. *)
Record ValidationRule := {
  check : jsval → Data → completion bool;
  message : jsstring;
}.

(** [type ValidationSchema<T>]: the keys of the object in the order
    [for ... in] visits them, each with its value, [None] for a key whose
    value is [undefined] (the rule list is optional). The keys of an object
    are pairwise distinct. *)
Abbreviation ValidationSchema :=
  (list (jsstring * option (list ValidationRule))).

Definition keys (schema : ValidationSchema) : list jsstring := schema.*1.

(** The inner loop, [for (const rule of rules)]. *)
Fixpoint check_rules (data : Data) (field : jsstring)
    (rules : list ValidationRule) (errors : Errors) : completion Errors :=
  match rules with
  | [] => Normal errors
  | rule :: rest =>
    ok ← check rule (get data field) data;
    if negb ok
    then Normal (assign field (message rule) errors)   (* break *)
    else check_rules data field rest errors
  end.

(** The outer loop, [for (const field in schema)]. *)
Fixpoint check_fields (data : Data) (schema : ValidationSchema)
    (errors : Errors) : completion Errors :=
  match schema with
  | [] => Normal errors
  | (field, rules) :: rest =>
    match rules with
    | None => check_fields data rest errors          (* continue *)
    | Some rules =>
      errors' ← check_rules data field rules errors;
      check_fields data rest errors'
    end
  end.

Definition validate (data : Data) (schema : ValidationSchema)
    : completion Errors :=
  check_fields data schema ∅.

(** What one field contributes: the message of the rule at which the inner
    loop breaks, if it does. Used to state what the loops compute. *)
Fixpoint first_failure (data : Data) (field : jsstring)
    (rules : list ValidationRule) : completion (option jsstring) :=
  match rules with
  | [] => Normal None
  | rule :: rest =>
    ok ← check rule (get data field) data;
    if negb ok then Normal (Some (message rule))
    else first_failure data field rest
  end.

Definition record_failure (field : jsstring) (o : option jsstring)
    (errors : Errors) : Errors :=
  match o with
  | Some m => assign field m errors
  | None => errors
  end.

(** Every predicate of the schema returns a boolean on this data. *)
Definition predicates_return (data : Data) (schema : ValidationSchema) : Prop :=
  ∀ field rules rule, (field, Some rules) ∈ schema → rule ∈ rules →
    ∃ b, check rule (get data field) data = Normal b.

(** The rule that ignores the value it is given and answers as [rule] does on
    [undefined]; [pin_undefined field schema] replaces the rules of [field] by
    such rules. Used to state which value the predicates of a missing key
    are called with. *)
Definition at_undefined (rule : ValidationRule) : ValidationRule :=
  {| check := λ _ all, check rule JUndefined all; message := message rule |}.

Definition pin_undefined (field : jsstring) (schema : ValidationSchema)
    : ValidationSchema :=
  map (λ entry, if decide (entry.1 = field)
                then (entry.1, map at_undefined <$> entry.2)
                else entry) schema.

(** ** The registration form *)

Section Registration.

(** [Number(v)], [isNaN] and the comparison of numbers are the engine's,
    over IEEE doubles; the rule table is modelled over any implementation
    of them. [num n] is the numeric literal [n]. *)
Variable number : Type.
Variable Number : jsval → number.
Variable isNaN : number → bool.
Variable num : nat → number.
Variable ge le : number → number → bool.

Definition rule (check : jsval → Data → completion bool)
    (message : jsstring) : ValidationRule :=
  {| check := check; message := message |}.

(** [/^[^\s@]+@[^\s@]+\.[^\s@]+$/] *)
Definition email_re : RegExp :=
  let part := Plus (Class (λ c, negb (is_space c || is_char (chr "@") c))) in
  {| at_start := true;
     body := seq [part; lit (js "@"); part; lit (js "."); part];
     at_end := true |}.

(** [/[a-z]/], [/[A-Z]/] and [/\d/] *)
Definition lower_re : RegExp :=
  {| at_start := false;
     body := Class (in_range (chr "a") (chr "z"));
     at_end := false |}.
Definition upper_re : RegExp :=
  {| at_start := false;
     body := Class (in_range (chr "A") (chr "Z"));
     at_end := false |}.
Definition digit_re : RegExp :=
  {| at_start := false;
     body := Class (in_range (chr "0") (chr "9"));
     at_end := false |}.

(** [/^https?:\/\/.+\..+/] *)
Definition url_re : RegExp :=
  {| at_start := true;
     body := seq [lit (js "http"); Opt (lit (js "s")); lit (js "://");
                  Plus dot; lit (js "."); Plus dot];
     at_end := false |}.

Definition nameRules : list ValidationRule := [
  rule (λ v _, s ← trim v; mret (0 <? length s))
       (js "Имя обязательно");
  rule (λ v _, s ← trim v; mret (2 <=? length s))
       (js "Минимум 2 символа");
  rule (λ v _, s ← trim v; mret (length s <=? 50))
       (js "Максимум 50 символов")
].

Definition emailRules : list ValidationRule := [
  rule (λ v _, n ← length_of v; mret (gt n 0))
       (js "Email обязателен");
  rule (λ v _, mret (test email_re v))
       (js "Некорректный формат email")
].

Definition passwordRules : list ValidationRule := [
  rule (λ v _, n ← length_of v; mret (gt n 0))
       (js "Пароль обязателен");
  rule (λ v _, n ← length_of v; mret (geq n 8))
       (js "Минимум 8 символов");
  rule (λ v _, mret (test lower_re v))
       (js "Нужна хотя бы одна строчная буква");
  rule (λ v _, mret (test upper_re v))
       (js "Нужна хотя бы одна заглавная буква");
  rule (λ v _, mret (test digit_re v))
       (js "Нужна хотя бы одна цифра")
].

Definition confirmPasswordRules : list ValidationRule := [
  rule (λ v _, n ← length_of v; mret (gt n 0))
       (js "Подтвердите пароль");
  rule (λ v all, mret (strict_eq v (get all (js "password"))))
       (js "Пароли не совпадают")
].

Definition ageRules : list ValidationRule := [
  rule (λ v _, n ← length_of v; mret (gt n 0))
       (js "Возраст обязателен");
  rule (λ v _, mret (negb (isNaN (Number v))))
       (js "Введите число");
  rule (λ v _, mret (ge (Number v) (num 18)))
       (js "Минимум 18 лет");
  rule (λ v _, mret (le (Number v) (num 120)))
       (js "Проверьте возраст")
].

Definition websiteRules : list ValidationRule := [
  rule (λ v _, mret (negb (ToBoolean v) || test url_re v))
       (js "URL должен начинаться с http:// или https://")
].

Definition registrationSchema : ValidationSchema := [
  (js "name", Some nameRules);
  (js "email", Some emailRules);
  (js "password", Some passwordRules);
  (js "confirmPassword", Some confirmPasswordRules);
  (js "age", Some ageRules);
  (js "website", Some websiteRules)
].

(** [interface RegistrationData] *)
Record RegistrationData := {
  name : jsstring;
  email : jsstring;
  password : jsstring;
  confirmPassword : jsstring;
  age : jsstring;
  website : jsstring;
}.

(** The own properties of a [RegistrationData] object. *)
Definition entries (d : RegistrationData) : list (jsstring * jsstring) := [
  (js "name", name d);
  (js "email", email d);
  (js "password", password d);
  (js "confirmPassword", confirmPassword d);
  (js "age", age d);
  (js "website", website d)
].

(** The object as [validate] reads it, and [Object.keys] of it. *)
Definition record_of (d : RegistrationData) : Data := list_to_map (entries d).
Definition Object_keys (d : RegistrationData) : list jsstring := (entries d).*1.

(** The state cells of the component that the submit handler touches. *)
Inductive SubmitStatus := idle | success.

Record State := {
  formData : RegistrationData;
  errors : Errors;
  touched : gset jsstring;
  submitStatus : SubmitStatus;
}.

Definition setTouched (t : gset jsstring) (st : State) : State :=
  {| formData := formData st; errors := errors st;
     touched := t; submitStatus := submitStatus st |}.
Definition setErrors (e : Errors) (st : State) : State :=
  {| formData := formData st; errors := e;
     touched := touched st; submitStatus := submitStatus st |}.
Definition setSubmitStatus (s : SubmitStatus) (st : State) : State :=
  {| formData := formData st; errors := errors st;
     touched := touched st; submitStatus := s |}.

(** [handleSubmit]: the setter calls in the order of the source, with the
    completion of the handler. *)
Definition handleSubmit (st : State) : completion unit * State :=
  let allFields := Object_keys (formData st) in
  let st := setTouched (list_to_set allFields) st in
  match validate (record_of (formData st)) registrationSchema with
  | Throw e => (Throw e, st)
  | Normal validationErrors =>
    let st := setErrors validationErrors st in
    if 0 <? size validationErrors
    then (Normal (), st)                            (* return *)
    else (Normal (), setSubmitStatus success st)
  end.

End Registration.

(** ** The validator over a store of objects

    [validate] receives references. Here the two arguments and the object it
    returns live in a store, and the statements of [validate_st] are the
    reads, the allocation, the calls and the one property write of the
    source. A function value is the name of its code; the code of a rule
    predicate receives the value and the reference to [data], and may read
    and write the store. The keys of the schema and their rule lists are
    read when the outer loop starts. *)

Abbreviation loc := positive.
Abbreviation fn := nat.

(** A rule object [{ check, message }] as it lies in the store. *)
Record RuleObject := {
  check_ref : fn;
  message_of : jsstring;
}.

Inductive object :=
  | ORecord (fields : gmap jsstring jsstring)
  | OSchema (entries : list (jsstring * option (list RuleObject))).

Abbreviation store := (gmap loc object).

Definition eff (A : Type) : Type := store → completion A * store.

Definition eff_ret {A} (a : A) : eff A := λ h, (Normal a, h).

Definition eff_bind {A B} (m : eff A) (f : A → eff B) : eff B := λ h,
  match m h with
  | (Normal a, h') => f a h'
  | (Throw e, h') => (Throw e, h')
  end.

Notation "'let*' x := m 'in' k" := (eff_bind m (λ x, k))
  (at level 10, x name, m at level 100, k at level 200).

(** [{}]: a new object at an unused location. *)
Definition alloc (o : object) : eff loc := λ h,
  let l := fresh (dom h) in (Normal l, <[l := o]> h).

(** [obj[field]] on a record. *)
Definition get_prop (l : loc) (field : jsstring) : eff jsval := λ h,
  match h !! l with
  | Some (ORecord d) => (Normal (get d field), h)
  | _ => (Throw TypeError, h)
  end.

(** The keys of a schema object with their rule lists. *)
Definition read_schema (l : loc)
    : eff (list (jsstring * option (list RuleObject))) := λ h,
  match h !! l with
  | Some (OSchema s) => (Normal s, h)
  | _ => (Throw TypeError, h)
  end.

(** [obj[field] = value] on a record. *)
Definition set_prop (l : loc) (field value : jsstring) : eff unit := λ h,
  match h !! l with
  | Some (ORecord d) => (Normal (), <[l := ORecord (assign field value d)]> h)
  | _ => (Throw TypeError, h)
  end.

Section Store.

(** The code of the function values. *)
Variable code : fn → jsval → loc → eff bool.

Fixpoint check_rules_st (data errors : loc) (field : jsstring)
    (rules : list RuleObject) : eff unit :=
  match rules with
  | [] => eff_ret ()
  | rule :: rest =>
    let* value := get_prop data field in
    let* ok := code (check_ref rule) value data in
    if negb ok
    then set_prop errors field (message_of rule)       (* break *)
    else check_rules_st data errors field rest
  end.

Fixpoint check_fields_st (data errors : loc)
    (schema : list (jsstring * option (list RuleObject))) : eff unit :=
  match schema with
  | [] => eff_ret ()
  | (field, rules) :: rest =>
    match rules with
    | None => check_fields_st data errors rest         (* continue *)
    | Some rules =>
      let* _ := check_rules_st data errors field rules in
      check_fields_st data errors rest
    end
  end.

Definition validate_st (data schema : loc) : eff loc :=
  let* errors := alloc (ORecord ∅) in
  let* fields := read_schema schema in
  let* _ := check_fields_st data errors fields in
  eff_ret errors.

End Store.

(** The predicates are deterministic pure functions: the code named [f]
    computes [pure f] from the value and the contents of [data], and leaves
    the store as it is. *)
Definition pure_code (code : fn → jsval → loc → eff bool)
    (pure : fn → jsval → Data → completion bool) : Prop :=
  ∀ f x data h d, h !! data = Some (ORecord d) →
    code f x data h = (pure f x d, h).

(** The rules and the schema that rule objects with pure code denote. *)
Definition rule_of (pure : fn → jsval → Data → completion bool)
    (r : RuleObject) : ValidationRule :=
  {| check := pure (check_ref r); message := message_of r |}.

Definition schema_of (pure : fn → jsval → Data → completion bool)
    (entries : list (jsstring * option (list RuleObject))) : ValidationSchema :=
  map (λ entry, (entry.1, map (rule_of pure) <$> entry.2)) entries.

(** The outcome of a completion, with another value in place of the one
    returned. *)
Definition completed {A B} (c : completion A) (b : B) : completion B :=
  match c with
  | Normal _ => Normal b
  | Throw x => Throw x
  end.

(** Two outcomes of [validate_st] agree as values: both threw the same
    exception, or both returned an object and the two objects have the same
    properties. *)
Definition deep_equal (r1 r2 : completion loc) (h : store) : Prop :=
  match r1, r2 with
  | Normal l1, Normal l2 =>
    ∃ e, h !! l1 = Some (ORecord e) ∧ h !! l2 = Some (ORecord e)
  | Throw x1, Throw x2 => x1 = x2
  | _, _ => False
  end.

(** ** Sample inputs

    Schemas made of rule lists of the registration table, for runs of
    [validate] on concrete objects. *)

Definition nameSchema : ValidationSchema := [(js "name", Some nameRules)].

Definition websiteSchema : ValidationSchema :=
  [(js "website", Some websiteRules)].

Definition confirmPasswordSchema : ValidationSchema :=
  [(js "confirmPassword", Some confirmPasswordRules)].

(** Two enumerations of the keys of one schema object. *)
Definition nameFirst : ValidationSchema :=
  [(js "name", Some nameRules); (js "website", Some websiteRules)].
Definition websiteFirst : ValidationSchema :=
  [(js "website", Some websiteRules); (js "name", Some nameRules)].

(** The name rules as rule objects, the code of their predicates, and a
    store with a data object and the schema object of the name rules. *)
Definition nameRuleObjects : list RuleObject :=
  imap (λ i r, {| check_ref := i; message_of := message r |}) nameRules.

Definition namePure (f : fn) (x : jsval) (d : Data) : completion bool :=
  match nameRules !! f with
  | Some r => check r x d
  | None => Throw TypeError
  end.

Definition nameCode (f : fn) (x : jsval) (data : loc) : eff bool := λ h,
  match h !! data with
  | Some (ORecord d) => (namePure f x d, h)
  | _ => (Throw TypeError, h)
  end.

Definition sampleStore : store :=
  {[ 1%positive := ORecord {[ js "name" := js "A" ]};
     2%positive := OSchema [(js "name", Some nameRuleObjects)] ]}.

(** A filled-in form whose website has no dot after the scheme. *)
Definition localhostForm : RegistrationData :=
  {| name := js "Al"; email := js "al@example.com";
     password := js "Abcdefg1"; confirmPassword := js "Abcdefg1";
     age := js "20"; website := js "http://localhost" |}.

(** ** The rest of the component

    The other handlers of [VanillaValidation], what the render reads from
    the state, and the events the rendered page can raise. *)

(** The six inputs of the form. [handleChange] and [handleBlur] are
    registered on them alone, so [e.target] is one of them; [input_name] is
    its [name] attribute. *)
Inductive Input :=
  | nameInput
  | emailInput
  | passwordInput
  | confirmPasswordInput
  | ageInput
  | websiteInput.

Definition input_name (i : Input) : jsstring :=
  match i with
  | nameInput => js "name"
  | emailInput => js "email"
  | passwordInput => js "password"
  | confirmPasswordInput => js "confirmPassword"
  | ageInput => js "age"
  | websiteInput => js "website"
  end.

(** [{ ...formData, [name]: value }] for the name of an input. *)
Definition with_value (i : Input) (value : jsstring) (d : RegistrationData)
    : RegistrationData :=
  match i with
  | nameInput =>
    {| name := value; email := email d; password := password d;
       confirmPassword := confirmPassword d; age := age d;
       website := website d |}
  | emailInput =>
    {| name := name d; email := value; password := password d;
       confirmPassword := confirmPassword d; age := age d;
       website := website d |}
  | passwordInput =>
    {| name := name d; email := email d; password := value;
       confirmPassword := confirmPassword d; age := age d;
       website := website d |}
  | confirmPasswordInput =>
    {| name := name d; email := email d; password := password d;
       confirmPassword := value; age := age d; website := website d |}
  | ageInput =>
    {| name := name d; email := email d; password := password d;
       confirmPassword := confirmPassword d; age := value;
       website := website d |}
  | websiteInput =>
    {| name := name d; email := email d; password := password d;
       confirmPassword := confirmPassword d; age := age d;
       website := value |}
  end.

(** [{ ...prev, [name]: v }] on the errors, for the name of an input and
    what a report holds for it. The component reads the errors by
    [errors[field]] only, and under such a name a property that holds
    [undefined] reads as an absent one: [Errors] keeps the properties that
    hold a string. A report holds no object under the name of an input, none
    of these names being one of [Object.prototype]. *)
Definition with_error (name : jsstring) (v : jsval) (prev : Errors) : Errors :=
  match v with
  | JString m => <[name := m]> prev
  | JUndefined => delete name prev
  | JFunction _ _ => delete name prev
  | JObjectPrototype => delete name prev
  end.

(** [formData[name]] for the name of an input. *)
Definition value_of (i : Input) (d : RegistrationData) : jsstring :=
  match i with
  | nameInput => name d
  | emailInput => email d
  | passwordInput => password d
  | confirmPasswordInput => confirmPassword d
  | ageInput => age d
  | websiteInput => website d
  end.

(** A character an email part may hold: no white space, no [@]. *)
Definition plain (c : char) : Prop := is_space c = false ∧ c ≠ chr "@".

Definition setFormData (d : RegistrationData) (st : State) : State :=
  {| formData := d; errors := errors st;
     touched := touched st; submitStatus := submitStatus st |}.

(** The initial values of the four [useState] cells. *)
Definition initialState : State :=
  {| formData := {| name := js ""; email := js ""; password := js "";
                    confirmPassword := js ""; age := js "";
                    website := js "" |};
     errors := ∅;
     touched := ∅;
     submitStatus := idle |}.

(** [showError]: what the render shows next to a field. *)
Definition showError (st : State) (field : jsstring) : jsval :=
  if decide (field ∈ touched st) then get (errors st) field else JUndefined.

(** [/[^a-zA-Z\d]/] *)
Definition special_re : RegExp :=
  {| at_start := false;
     body := Class (λ c, negb (in_range (chr "a") (chr "z") c
                               || in_range (chr "A") (chr "Z") c
                               || in_range (chr "0") (chr "9") c));
     at_end := false |}.

(** [passwordStrength], computed at each render from [formData.password]. *)
Definition passwordStrength (d : RegistrationData) : nat :=
  let p := JString (password d) in
  if negb (ToBoolean p) then 0
  else
    let score := 0 in
    let score := if 8 <=? length (password d) then S score else score in
    let score := if test lower_re p then S score else score in
    let score := if test upper_re p then S score else score in
    let score := if test digit_re p then S score else score in
    let score := if test special_re p then S score else score in
    score.

Definition strengthLabels : list jsstring :=
  [js ""; js "Слабый"; js "Средний"; js "Хороший"; js "Сильный";
   js "Отличный"].

Definition strengthColors : list jsstring :=
  [js ""; js "var(--error)"; js "var(--warning)"; js "var(--warning)";
   js "var(--success)"; js "var(--success)"].

(** The [onClick] of the button of the success view. *)
Definition handleReset (st : State) : completion unit * State :=
  (Normal (),
   setSubmitStatus idle
     (setTouched ∅ (setErrors ∅ (setFormData (formData initialState) st)))).

(** What the page can raise: the success view replaces the form, so the
    form events need the [idle] status and the reset button the [success]
    status. *)
Inductive Event :=
  | Change (i : Input) (value : jsstring)
  | Blur (i : Input)
  | Submit
  | Reset.

Definition enabled (st : State) (ev : Event) : Prop :=
  match ev with
  | Reset => submitStatus st = success
  | _ => submitStatus st = idle
  end.

Section Component.

Variable number : Type.
Variable Number : jsval → number.
Variable isNaN : number → bool.
Variable num : nat → number.
Variable ge le : number → number → bool.

(** [handleChange] for the event of an input with the value typed. *)
Definition handleChange (i : Input) (value : jsstring) (st : State)
    : completion unit * State :=
  let name := input_name i in
  let newData := with_value i value (formData st) in
  let st' := setFormData newData st in
  if decide (name ∈ touched st) then
    match validate (record_of newData)
            (registrationSchema number Number isNaN num ge le) with
    | Throw e => (Throw e, st')
    | Normal newErrors =>
      (Normal (),
       setErrors (with_error name (get newErrors name) (errors st')) st')
    end
  else (Normal (), st').

(** [handleBlur] for the event of an input. *)
Definition handleBlur (i : Input) (st : State) : completion unit * State :=
  let name := input_name i in
  let st' := setTouched ({[ name ]} ∪ touched st) st in
  match validate (record_of (formData st))
          (registrationSchema number Number isNaN num ge le) with
  | Throw e => (Throw e, st')
  | Normal newErrors =>
    (Normal (),
     setErrors (with_error name (get newErrors name) (errors st')) st')
  end.

Definition dispatch (ev : Event) (st : State) : completion unit * State :=
  match ev with
  | Change i value => handleChange i value st
  | Blur i => handleBlur i st
  | Submit => handleSubmit number Number isNaN num ge le st
  | Reset => handleReset st
  end.

(** The states the page can be in. *)
Inductive reachable : State → Prop :=
  | reachable_initial : reachable initialState
  | reachable_step st ev :
      reachable st → enabled st ev → reachable (dispatch ev st).2.

(** A message in a report of the registration schema is the message of a
    rule of the field. *)
Definition configured (f m : jsstring) : Prop :=
  ∃ rules rule,
    (f, Some rules) ∈ registrationSchema number Number isNaN num ge le
    ∧ rule ∈ rules ∧ message rule = m.

End Component.

(** ** Sample pages *)

(** The registration schema and the page with a number type of one value:
    every age then passes the three number rules. *)
Definition unitSchema : ValidationSchema :=
  registrationSchema unit (λ _, ()) (λ _, false) (λ _, ()) (λ _ _, true)
    (λ _ _, true).

Definition play (ev : Event) (st : State) : State :=
  (dispatch unit (λ _, ()) (λ _, false) (λ _, ()) (λ _ _, true) (λ _ _, true)
     ev st).2.

(** The page after leaving the empty name field. *)
Definition blurredState : State := play (Blur nameInput) initialState.

(** The page after typing a valid form and submitting it. *)
Definition typedState : State :=
  play (Change ageInput (js "20"))
    (play (Change confirmPasswordInput (js "Abcdefg1"))
       (play (Change passwordInput (js "Abcdefg1"))
          (play (Change emailInput (js "al@example.com"))
             (play (Change nameInput (js "Al")) initialState)))).

Definition submittedState : State := play Submit typedState.

(** A form whose confirmation was left while it matched the password. *)
Definition matchedState : State :=
  {| formData := localhostForm; errors := ∅;
     touched := {[ js "confirmPassword" ]}; submitStatus := idle |}.

(** * Properties *)

(** Membership in a list that is written out: one goal per element. *)
Ltac each_member H :=
  repeat (apply elem_of_cons in H as [H|H]; [simplify_eq|]);
  try (by apply elem_of_nil in H).

(** The keys of a schema that is written out are distinct. *)
Ltac distinct_keys :=
  repeat (apply NoDup_cons; split;
          [let H := fresh in intros H; each_member H|]);
  apply NoDup_nil_2.

(** ** Regular expressions: [matches] decides [Matches] *)

Section RegexTheory.

Lemma Matches_Cat_inv r1 r2 s :
  Matches (Cat r1 r2) s →
  ∃ s1 s2, s = s1 ++ s2 ∧ Matches r1 s1 ∧ Matches r2 s2.
Proof. inversion 1; subst; eauto. Qed.

Lemma Matches_Alt_inv r1 r2 s :
  Matches (Alt r1 r2) s → Matches r1 s ∨ Matches r2 s.
Proof. inversion 1; subst; eauto. Qed.

Lemma Matches_Class_inv p s :
  Matches (Class p) s → ∃ c, s = [c] ∧ p c = true.
Proof. inversion 1; subst; eauto. Qed.

Lemma Matches_Eps_inv s : Matches Eps s → s = [].
Proof. by inversion 1. Qed.

Lemma Matches_Void_inv s : ¬ Matches Void s.
Proof. inversion 1. Qed.

(** A starred match either is empty or starts with a non-empty round. *)
Lemma Matches_Star_inv r s :
  Matches (Star r) s →
  s = [] ∨ ∃ c s1 s2, s = (c :: s1) ++ s2
                      ∧ Matches r (c :: s1) ∧ Matches (Star r) s2.
Proof.
  intros H. remember (Star r) as r' eqn:Hr.
  induction H as [| | | | | r0 | r0 s1 s2 H1 _ H2 IH2]; try discriminate.
  - by left.
  - injection Hr as ->. destruct s1 as [|c s1].
    + simpl. by apply IH2.
    + right. by exists c, s1, s2.
Qed.

Lemma nullable_Matches r : nullable r = true ↔ Matches r [].
Proof.
  induction r as [| |p|r1 IH1 r2 IH2|r1 IH1 r2 IH2|r IH]; simpl.
  - split; [done | by intros ?%Matches_Void_inv].
  - split; [constructor | done].
  - split; [done | by intros (c & ? & _)%Matches_Class_inv].
  - rewrite andb_true_iff, IH1, IH2. split.
    + intros [H1 H2]. by apply (MCat _ _ [] []).
    + intros (s1 & s2 & Hs & H1 & H2)%Matches_Cat_inv.
      symmetry in Hs. apply app_eq_nil in Hs as [-> ->]. done.
  - rewrite orb_true_iff, IH1, IH2. split.
    + intros [H|H]; [by apply MAltL | by apply MAltR].
    + apply Matches_Alt_inv.
  - split; [constructor | done].
Qed.

Lemma deriv_Matches c r s : Matches (deriv c r) s ↔ Matches r (c :: s).
Proof.
  revert s.
  induction r as [| |p|r1 IH1 r2 IH2|r1 IH1 r2 IH2|r IH]; intros s; simpl.
  - split; intros H; by apply Matches_Void_inv in H.
  - split; intros H; [by apply Matches_Void_inv in H |].
    by apply Matches_Eps_inv in H.
  - destruct (p c) eqn:Hp; split; intros H.
    + apply Matches_Eps_inv in H as ->. by constructor.
    + apply Matches_Class_inv in H as (c' & [= <- ->] & _). constructor.
    + by apply Matches_Void_inv in H.
    + apply Matches_Class_inv in H as (c' & [= <- ->] & Hc). congruence.
  - assert (Hcat : Matches (Cat (deriv c r1) r2) s →
                   Matches (Cat r1 r2) (c :: s)).
    { intros (s1 & s2 & -> & H1 & H2)%Matches_Cat_inv.
      apply IH1 in H1. by apply (MCat _ _ (c :: s1) s2). }
    assert (Hback : Matches (Cat r1 r2) (c :: s) →
                    Matches (Cat (deriv c r1) r2) s
                    ∨ (Matches r1 [] ∧ Matches (deriv c r2) s)).
    { intros (s1 & s2 & Hs & H1 & H2)%Matches_Cat_inv.
      destruct s1 as [|c' s1]; simpl in Hs.
      - right. subst s2. split; [done | by apply IH2].
      - injection Hs as <- ->. left. apply MCat; [by apply IH1 | done]. }
    destruct (nullable r1) eqn:Hn; split.
    + intros [H|H]%Matches_Alt_inv; [by apply Hcat |].
      apply IH2 in H. apply nullable_Matches in Hn.
      by apply (MCat _ _ [] (c :: s)).
    + intros [H|[_ H]]%Hback; [by apply MAltL | by apply MAltR].
    + apply Hcat.
    + intros [H|[H _]]%Hback; [done |].
      apply nullable_Matches in H. congruence.
  - split.
    + intros [H|H]%Matches_Alt_inv;
        [apply MAltL, IH1, H | apply MAltR, IH2, H].
    + intros [H|H]%Matches_Alt_inv;
        [apply MAltL, IH1, H | apply MAltR, IH2, H].
  - split.
    + intros (s1 & s2 & -> & H1 & H2)%Matches_Cat_inv.
      apply IH in H1. by apply (MStarCons _ (c :: s1) s2).
    + intros [?|(c' & s1 & s2 & Hs & H1 & H2)]%Matches_Star_inv; [done|].
      injection Hs as <- ->. apply MCat; [by apply IH | done].
Qed.

Lemma matches_Matches r s : matches r s = true ↔ Matches r s.
Proof.
  revert r. induction s as [|c s IH]; intros r; simpl.
  - apply nullable_Matches.
  - rewrite IH. apply deriv_Matches.
Qed.

End RegexTheory.

(** ** Reads and writes of properties *)

Section ObjectTheory.

Implicit Types (obj : gmap jsstring jsstring) (field value : jsstring).

Lemma inherited_undefined field :
  field ∉ Object_prototype.*1 → inherited field = JUndefined.
Proof.
  intros Hout. unfold inherited.
  by rewrite (not_elem_of_list_to_map_1 _ _ Hout).
Qed.

(** No member of [Object.prototype] is a string. *)
Lemma inherited_not_string field m : inherited field ≠ JString m.
Proof.
  unfold inherited.
  destruct (list_to_map Object_prototype !! field) as [v|] eqn:Hv; [|done].
  apply elem_of_list_to_map_2 in Hv. unfold Object_prototype in Hv.
  each_member Hv; done.
Qed.

Lemma get_missing (data : Data) field :
  data !! field = None → field ∉ Object_prototype.*1 →
  get data field = JUndefined.
Proof. unfold get. intros -> Hout. by apply inherited_undefined. Qed.

Lemma get_string (data : Data) field m :
  get data field = JString m ↔ data !! field = Some m.
Proof.
  unfold get. destruct (data !! field) as [s|].
  - split; congruence.
  - split; [by intros ?%inherited_not_string | done].
Qed.

Lemma assign_insert field value obj :
  field ≠ js "__proto__" → assign field value obj = <[field := value]> obj.
Proof. intros Hne. unfold assign. by rewrite decide_False. Qed.

Lemma assign_proto value obj :
  obj !! js "__proto__" = None → assign (js "__proto__") value obj = obj.
Proof. intros Hnone. unfold assign. by rewrite decide_True, Hnone. Qed.

Lemma lookup_assign_ne field value obj f :
  f ≠ field → assign field value obj !! f = obj !! f.
Proof.
  intros Hne. unfold assign.
  destruct (decide (field = js "__proto__")); [destruct (obj !! field)|];
    by rewrite ?lookup_insert_ne.
Qed.

Lemma lookup_assign field value obj :
  field ≠ js "__proto__" → assign field value obj !! field = Some value.
Proof. intros Hne. rewrite assign_insert by done. apply lookup_insert_eq. Qed.

Lemma lookup_assign_Some field value obj f m :
  assign field value obj !! f = Some m →
  obj !! f = Some m ∨ (f = field ∧ m = value).
Proof.
  destruct (decide (f = field)) as [->|Hne].
  - unfold assign.
    destruct (decide (field = js "__proto__"));
      [destruct (obj !! field) eqn:Hown|];
      rewrite ?lookup_insert_eq; intros H; simplify_eq; auto.
  - rewrite lookup_assign_ne by done. by left.
Qed.

(** A string never becomes a property [__proto__]. *)
Lemma lookup_assign_proto field value obj :
  obj !! js "__proto__" = None →
  assign field value obj !! js "__proto__" = None.
Proof.
  intros Hnone. destruct (decide (field = js "__proto__")) as [->|Hne].
  - by rewrite assign_proto.
  - by rewrite lookup_assign_ne.
Qed.

Lemma assign_assign_ne f1 v1 f2 v2 obj :
  f1 ≠ f2 →
  assign f1 v1 (assign f2 v2 obj) = assign f2 v2 (assign f1 v1 obj).
Proof.
  intros Hne. unfold assign.
  destruct (decide (f1 = js "__proto__")) as [E1|N1],
           (decide (f2 = js "__proto__")) as [E2|N2]; [congruence|..].
  - rewrite lookup_insert_ne by done.
    destruct (obj !! f1); [by apply insert_insert_ne | done].
  - rewrite lookup_insert_ne by done.
    destruct (obj !! f2); [by apply insert_insert_ne | done].
  - by apply insert_insert_ne.
Qed.

End ObjectTheory.

(** ** The loops of [validate] *)

Section ValidatorTheory.

Implicit Types (data : Data) (errors : Errors) (field : jsstring).
Implicit Types (schema : ValidationSchema) (rules : list ValidationRule).

Lemma check_rules_first_failure data field rules errors :
  check_rules data field rules errors
  = o ← first_failure data field rules;
    Normal (record_failure field o errors).
Proof.
  induction rules as [|rule rest IH]; simpl; [done|].
  destruct (check rule (get data field) data) as [[|]|e]; simpl; auto.
Qed.

Lemma check_fields_cons data field rules schema errors :
  check_fields data ((field, Some rules) :: schema) errors
  = o ← first_failure data field rules;
    check_fields data schema (record_failure field o errors).
Proof.
  simpl. rewrite check_rules_first_failure.
  by destruct (first_failure data field rules).
Qed.

Lemma check_fields_cons_None data field schema errors :
  check_fields data ((field, None) :: schema) errors
  = check_fields data schema errors.
Proof. done. Qed.

Lemma first_failure_all_true data field rules :
  (∀ rule, rule ∈ rules → check rule (get data field) data = Normal true) →
  first_failure data field rules = Normal None.
Proof.
  induction rules as [|rule rest IH]; intros H; simpl; [done|].
  rewrite (H rule) by left. simpl. apply IH. intros r Hr. apply H. by right.
Qed.

Lemma first_failure_returns data field rules :
  (∀ rule, rule ∈ rules → ∃ b, check rule (get data field) data = Normal b) →
  ∃ o, first_failure data field rules = Normal o.
Proof.
  induction rules as [|rule rest IH]; intros H; simpl; [by eexists|].
  destruct (H rule) as [b ->]; [by left|]. destruct b; simpl.
  - apply IH. intros r Hr. apply H. by right.
  - by eexists.
Qed.

(** The loop breaks at the first rule that returns false. *)
Lemma first_failure_at data field rules i rule o :
  rules !! i = Some rule →
  check rule (get data field) data = Normal false →
  (∀ j r, j < i → rules !! j = Some r →
     check r (get data field) data ≠ Normal false) →
  first_failure data field rules = Normal o →
  o = Some (message rule).
Proof.
  revert i. induction rules as [|r0 rest IH]; intros i Hi Hf Hmin; [done|].
  destruct i as [|i]; simpl in *.
  - injection Hi as ->. rewrite Hf. simpl. congruence.
  - destruct (check r0 (get data field) data) as [[|]|e] eqn:H0; simpl.
    + apply (IH i); [done..|]. intros j r Hj. apply (Hmin (S j)). lia.
    + destruct (Hmin 0 r0); [lia | done | done].
    + done.
Qed.

(** A field whose rules all pass keeps what the report held for it. *)
Lemma check_fields_frame data schema field errors errors' :
  (∀ rules, (field, Some rules) ∈ schema →
     first_failure data field rules = Normal None) →
  check_fields data schema errors = Normal errors' →
  errors' !! field = errors !! field.
Proof.
  revert errors.
  induction schema as [|[g [rules|]] rest IH]; intros errors Hok.
  - by intros [= ->].
  - rewrite check_fields_cons.
    destruct (first_failure data g rules) as [o|e] eqn:Ho; [|done]. simpl.
    intros Hrest. rewrite (IH _ ltac:(intros; apply Hok; by right) Hrest).
    destruct o as [m|]; [|done]. simpl.
    apply lookup_assign_ne. intros ->.
    rewrite (Hok rules) in Ho by left. done.
  - simpl. apply IH. intros. apply Hok. by right.
Qed.

(** The report never gets a property [__proto__]. *)
Lemma check_fields_no_proto data schema errors errors' :
  errors !! js "__proto__" = None →
  check_fields data schema errors = Normal errors' →
  errors' !! js "__proto__" = None.
Proof.
  revert errors.
  induction schema as [|[g [rules|]] rest IH]; intros errors Hnone.
  - by intros [= <-].
  - rewrite check_fields_cons.
    destruct (first_failure data g rules) as [o|e]; [|done]. simpl.
    apply IH. destruct o as [m|]; [|done]. by apply lookup_assign_proto.
  - simpl. by apply IH.
Qed.

Lemma check_fields_hit data schema field rules m errors errors' :
  NoDup (keys schema) →
  field ≠ js "__proto__" →
  (field, Some rules) ∈ schema →
  first_failure data field rules = Normal (Some m) →
  check_fields data schema errors = Normal errors' →
  errors' !! field = Some m.
Proof.
  intros Hnd Hfield Hin Hm. revert errors.
  induction schema as [|[g rs] rest IH]; intros errors; [by inversion Hin|].
  apply NoDup_cons in Hnd as [Hg Hnd].
  apply elem_of_cons in Hin as [[= <- <-]|Hin].
  - rewrite check_fields_cons, Hm. simpl. intros Hrest.
    erewrite check_fields_frame; [by apply lookup_assign | | done].
    intros rs Hrs. destruct Hg.
    apply (list_elem_of_fmap_2 fst) in Hrs. done.
  - destruct rs as [rs|]; [|by apply IH].
    rewrite check_fields_cons.
    destruct (first_failure data g rs); [|done]. by apply IH.
Qed.

Lemma check_fields_returns data schema errors :
  predicates_return data schema →
  ∃ errors', check_fields data schema errors = Normal errors'.
Proof.
  revert errors.
  induction schema as [|[g [rules|]] rest IH]; intros errors Hret.
  - by eexists.
  - rewrite check_fields_cons.
    destruct (first_failure_returns data g rules) as [o ->].
    { intros r Hr. apply (Hret g rules); [by left | done]. }
    apply IH. intros f rs r Hf. apply Hret. by right.
  - simpl. apply IH. intros f rs r Hf. apply Hret. by right.
Qed.

Lemma check_fields_all_valid data schema errors :
  (∀ field rules rule, (field, Some rules) ∈ schema → rule ∈ rules →
     check rule (get data field) data = Normal true) →
  check_fields data schema errors = Normal errors.
Proof.
  induction schema as [|[g [rules|]] rest IH]; intros Hok; [done|..].
  - rewrite check_fields_cons, first_failure_all_true; simpl.
    + apply IH. intros f rs r Hf. apply Hok. by right.
    + intros r Hr. apply (Hok g rules); [by left | done].
  - simpl. apply IH. intros f rs r Hf. apply Hok. by right.
Qed.

(** The keys of an object are distinct, so a key has one value. *)
Lemma schema_entry_unique schema field entry entry' :
  NoDup (keys schema) →
  (field, entry) ∈ schema → (field, entry') ∈ schema → entry = entry'.
Proof.
  induction schema as [|[g e0] rest IH]; intros Hnd H1 H2; [by inversion H1|].
  apply NoDup_cons in Hnd as [Hg Hnd].
  apply elem_of_cons in H1 as [?|H1];
    apply elem_of_cons in H2 as [?|H2]; simplify_eq; try done.
  - destruct Hg. by apply (list_elem_of_fmap_2 fst) in H2.
  - destruct Hg. by apply (list_elem_of_fmap_2 fst) in H1.
  - by apply IH.
Qed.

(** If the outer loop returns, the inner loop returned for every field. *)
Lemma check_fields_Normal_inv data schema field rules errors errors' :
  (field, Some rules) ∈ schema →
  check_fields data schema errors = Normal errors' →
  ∃ o, first_failure data field rules = Normal o.
Proof.
  revert errors.
  induction schema as [|[g [rs|]] rest IH]; intros errors Hin;
    [by inversion Hin|..]; apply elem_of_cons in Hin as [[= <- <-]|Hin].
  - rewrite check_fields_cons.
    destruct (first_failure data field rules); [by eexists | done].
  - rewrite check_fields_cons.
    destruct (first_failure data g rs); [|done]. by apply IH.
  - by apply IH.
Qed.

(** What the report holds for a key of the schema. *)
Lemma check_fields_lookup data schema field entry errors errors' :
  NoDup (keys schema) →
  field ≠ js "__proto__" →
  (field, entry) ∈ schema →
  check_fields data schema errors = Normal errors' →
  ∃ o, match entry with
       | Some rules => first_failure data field rules = Normal o
       | None => o = None
       end
       ∧ errors' !! field = match o with
                            | Some m => Some m
                            | None => errors !! field
                            end.
Proof.
  intros Hnd Hfield Hin Hret.
  assert (Huniq : ∀ entry', (field, entry') ∈ schema → entry' = entry).
  { intros e' He'. by eapply schema_entry_unique. }
  destruct entry as [rules|].
  - destruct (check_fields_Normal_inv _ _ _ _ _ _ Hin Hret) as [o Ho].
    exists o. split; [done|]. destruct o as [m|].
    + by eapply check_fields_hit.
    + eapply check_fields_frame; [|done].
      intros rs [= ->]%Huniq. done.
  - exists None. split; [done|].
    eapply check_fields_frame; [|done]. by intros rs ?%Huniq.
Qed.

(** Two neighbouring keys can be visited in either order. *)
Lemma check_fields_swap data f1 e1 f2 e2 schema errors :
  f1 ≠ f2 →
  returned (check_fields data ((f1, e1) :: (f2, e2) :: schema) errors)
  = returned (check_fields data ((f2, e2) :: (f1, e1) :: schema) errors).
Proof.
  intros Hne.
  destruct e1 as [r1|], e2 as [r2|];
    rewrite ?check_fields_cons_None, ?check_fields_cons,
      ?check_fields_cons_None; [| | |done].
  - destruct (first_failure data f1 r1) as [o1|x1] eqn:H1,
             (first_failure data f2 r2) as [o2|x2] eqn:H2;
      cbn [mbind completion_bind];
      rewrite ?check_fields_cons, ?H1, ?H2;
      cbn [mbind completion_bind returned]; try done.
    destruct o1, o2; unfold record_failure; try done.
    by rewrite assign_assign_ne.
  - destruct (first_failure data f1 r1); cbn [mbind completion_bind];
      by rewrite ?check_fields_cons_None.
  - destruct (first_failure data f2 r2); cbn [mbind completion_bind];
      by rewrite ?check_fields_cons_None.
Qed.

Lemma check_fields_skip data entry s1 s2 errors :
  (∀ errors0, returned (check_fields data s1 errors0)
              = returned (check_fields data s2 errors0)) →
  returned (check_fields data (entry :: s1) errors)
  = returned (check_fields data (entry :: s2) errors).
Proof.
  intros H. destruct entry as [f [rules|]]; [|apply H].
  rewrite !check_fields_cons.
  destruct (first_failure data f rules); simpl; [apply H | done].
Qed.

Lemma check_fields_perm data s1 s2 errors :
  NoDup (keys s1) → s1 ≡ₚ s2 →
  returned (check_fields data s1 errors)
  = returned (check_fields data s2 errors).
Proof.
  intros Hnd Hperm. revert errors.
  induction Hperm as [|x l l' Hp IH|[f1 e1] [f2 e2] l|l l' l'' Hp1 IH1 Hp2 IH2];
    intros errors.
  - done.
  - apply check_fields_skip. apply IH. by apply NoDup_cons in Hnd as [].
  - apply check_fields_swap.
    apply NoDup_cons in Hnd as [Hnotin _]. intros ->.
    apply Hnotin. left.
  - rewrite IH1 by done. apply IH2.
    unfold keys in *. by rewrite <- Hp1.
Qed.

(** The loops see a rule through its answer on the value read and through
    its message. *)
Lemma first_failure_ext data data' field field' rules rules' :
  Forall2 (λ r r', check r (get data field) data
                   = check r' (get data' field') data'
                   ∧ message r = message r') rules rules' →
  first_failure data field rules = first_failure data' field' rules'.
Proof.
  induction 1 as [|r r' rest rest' [Hc Hm] _ IH]; simpl; [done|].
  rewrite Hc, Hm, IH. done.
Qed.

Lemma check_fields_ext data data' schema errors :
  (∀ field rules rule, (field, Some rules) ∈ schema → rule ∈ rules →
     check rule (get data field) data = check rule (get data' field) data') →
  check_fields data schema errors = check_fields data' schema errors.
Proof.
  revert errors.
  induction schema as [|[g [rules|]] rest IH]; intros errors Hagree; [done|..].
  - rewrite !check_fields_cons.
    rewrite (first_failure_ext data data' g g rules rules).
    + destruct (first_failure data' g rules); simpl; [|done].
      apply IH. intros f rs r Hf. apply Hagree. by right.
    + apply Forall_Forall2_diag, Forall_forall. intros r Hr.
      split; [|done]. apply (Hagree g rules); [by left | done].
  - simpl. apply IH. intros f rs r Hf. apply Hagree. by right.
Qed.

Lemma check_fields_pin_undefined data field schema errors :
  get data field = JUndefined →
  check_fields data (pin_undefined field schema) errors
  = check_fields data schema errors.
Proof.
  intros Hmissing. revert errors.
  induction schema as [|[g [rules|]] rest IH]; intros errors; [done|..];
    simpl; destruct (decide (g = field)) as [->|Hne]; simpl;
    fold (pin_undefined field rest); rewrite <- ?check_fields_cons_None;
    try apply IH.
  - change (check_fields data ((field, Some (map at_undefined rules))
                                 :: pin_undefined field rest) errors
            = check_fields data ((field, Some rules) :: rest) errors).
    rewrite !check_fields_cons.
    rewrite (first_failure_ext data data field field
               (map at_undefined rules) rules).
    + destruct (first_failure data field rules); simpl; [apply IH | done].
    + apply Forall2_fmap_l, Forall_Forall2_diag, Forall_forall.
      intros r _. split; [|done]. simpl. by rewrite Hmissing.
  - change (check_fields data ((g, Some rules)
                                 :: pin_undefined field rest) errors
            = check_fields data ((g, Some rules) :: rest) errors).
    rewrite !check_fields_cons.
    destruct (first_failure data g rules); simpl; [apply IH | done].
Qed.

End ValidatorTheory.

(** ** The rule table of the registration form *)

Section UrlPattern.

Lemma is_char_true c0 c : is_char c0 c = true → c = c0.
Proof. apply N.eqb_eq. Qed.

Lemma Matches_lit cs s : Matches (lit cs) s → s = cs.
Proof.
  revert s. induction cs as [|c rest IH]; intros s H.
  - by apply Matches_Eps_inv in H.
  - destruct rest as [|c' rest'].
    + apply Matches_Class_inv in H as (c1 & -> & ->%is_char_true). done.
    + apply Matches_Cat_inv in H as (s1 & s2 & -> & H1 & H2).
      apply Matches_Class_inv in H1 as (c1 & -> & ->%is_char_true).
      apply IH in H2 as ->. done.
Qed.

Lemma Matches_Plus_Class p s : Matches (Plus (Class p)) s → s ≠ [].
Proof.
  intros (s1 & s2 & -> & (c & -> & _)%Matches_Class_inv & _)%Matches_Cat_inv.
  done.
Qed.

(** What a value that passes the pattern looks like. *)
Lemma url_re_shape v :
  test url_re (JString v) = true →
  ∃ scheme a b tail,
    (scheme = js "http://" ∨ scheme = js "https://")
    ∧ v = scheme ++ a ++ js "." ++ b ++ tail ∧ a ≠ [] ∧ b ≠ [].
Proof.
  unfold test. intros H%matches_Matches.
  cbv [language url_re at_start body at_end seq ToString] in H.
  apply Matches_Cat_inv in H as (s0 & s & -> & ->%Matches_Eps_inv & H).
  apply Matches_Cat_inv in H as (s1 & tail & -> & H & _).
  apply Matches_Cat_inv in H as (h & s & -> & ->%Matches_lit & H).
  apply Matches_Cat_inv in H as (o & s1 & -> & Ho & H).
  apply Matches_Cat_inv in H as (sep & s & -> & ->%Matches_lit & H).
  apply Matches_Cat_inv in H as (a & s1 & -> & Ha%Matches_Plus_Class & H).
  apply Matches_Cat_inv in H
    as (d & b & -> & ->%Matches_lit & Hb%Matches_Plus_Class).
  apply Matches_Alt_inv in Ho as [->%Matches_lit | ->%Matches_Eps_inv].
  - exists (js "https://"), a, b, tail. split; [by right|].
    repeat split; try done. simpl. by rewrite <- !app_assoc.
  - exists (js "http://"), a, b, tail. split; [by left|].
    repeat split; try done. simpl. by rewrite <- !app_assoc.
Qed.

Lemma url_re_needs_dot scheme rest :
  scheme = js "http://" ∨ scheme = js "https://" →
  chr "." ∉ rest →
  test url_re (JString (scheme ++ rest)) = false.
Proof.
  intros Hscheme Hdot. apply not_true_is_false.
  intros (scheme' & a & b & tail & Hscheme' & Heq & _)%url_re_shape.
  apply Hdot.
  assert (Hrest : rest = a ++ js "." ++ b ++ tail);
    [|rewrite Hrest; apply elem_of_app; right; left].
  destruct Hscheme as [E|E]; destruct Hscheme' as [E'|E'];
    rewrite E, E' in Heq; simpl in Heq; by simplify_eq.
Qed.

End UrlPattern.

Section RegistrationTheory.

Context {number : Type} (Number : jsval → number) (isNaN : number → bool).
Context (num : nat → number) (ge le : number → number → bool).

Local Abbreviation schema :=
  (registrationSchema number Number isNaN num ge le).

Lemma registrationSchema_keys : NoDup (keys schema).
Proof. distinct_keys. Qed.

Lemma registrationSchema_no_proto field entry :
  (field, entry) ∈ schema → field ≠ js "__proto__".
Proof. intros Hin ->. unfold registrationSchema in Hin. each_member Hin. Qed.

(** On a [RegistrationData] object every rule is given a string, and
    returns a boolean. *)
Lemma registrationSchema_returns d : predicates_return (record_of d) schema.
Proof.
  intros f rs r Hf Hr. unfold registrationSchema in Hf. each_member Hf;
    unfold nameRules, emailRules, passwordRules, confirmPasswordRules,
      ageRules, websiteRules in Hr;
    each_member Hr; eexists; reflexivity.
Qed.

Lemma validate_registration_returns d :
  ∃ errors, validate (record_of d) schema = Normal errors.
Proof. apply check_fields_returns, registrationSchema_returns. Qed.

(** The report for one key of the table. *)
Lemma validate_registration_lookup d field rules o :
  (field, Some rules) ∈ schema →
  first_failure (record_of d) field rules = Normal o →
  ∃ errors, validate (record_of d) schema = Normal errors
            ∧ errors !! field = o.
Proof.
  intros Hin Ho. destruct (validate_registration_returns d) as [errors Hv].
  exists errors. split; [done|].
  destruct (check_fields_lookup _ _ _ _ _ _ registrationSchema_keys
              (registrationSchema_no_proto _ _ Hin) Hin Hv) as (o' & Ho' & ->).
  rewrite Ho in Ho'. injection Ho' as <-. by destruct o.
Qed.

Lemma website_in_schema : (js "website", Some websiteRules) ∈ schema.
Proof. unfold registrationSchema. set_solver. Qed.

Lemma confirmPassword_in_schema :
  (js "confirmPassword", Some confirmPasswordRules) ∈ schema.
Proof. unfold registrationSchema. set_solver. Qed.

End RegistrationTheory.

(** ** The validator over the store *)

Section StoreTheory.

Context (code : fn → jsval → loc → eff bool).
Context (pure : fn → jsval → Data → completion bool).
Hypothesis code_pure : pure_code code pure.

Implicit Types (h : store) (d : Data) (e : Errors) (dl el sl : loc).

Lemma check_rules_st_spec dl el field rules h d e :
  h !! dl = Some (ORecord d) → h !! el = Some (ORecord e) →
  check_rules_st code dl el field rules h
  = match check_rules d field (map (rule_of pure) rules) e with
    | Normal e' => (Normal (), <[el := ORecord e']> h)
    | Throw x => (Throw x, h)
    end.
Proof.
  intros Hd He. induction rules as [|rule rest IH]; simpl.
  - unfold eff_ret. by rewrite insert_id.
  - unfold eff_bind at 1. unfold get_prop at 1. rewrite Hd.
    unfold eff_bind at 1. rewrite (code_pure _ _ _ _ d Hd).
    destruct (pure (check_ref rule) (get d field) d) as [[|]|x];
      simpl; [done| |done].
    unfold set_prop. by rewrite He.
Qed.

Lemma check_fields_st_spec dl el schema h d e :
  dl ≠ el →
  h !! dl = Some (ORecord d) → h !! el = Some (ORecord e) →
  ∃ e', check_fields_st code dl el schema h
        = (completed (check_fields d (schema_of pure schema) e) (),
           <[el := ORecord e']> h)
        ∧ ∀ e'', check_fields d (schema_of pure schema) e = Normal e'' →
                 e' = e''.
Proof.
  intros Hne. revert h e.
  induction schema as [|[field [rules|]] rest IH]; intros h e Hd He.
  - exists e. split; [|by intros ? [= ->]].
    simpl. unfold eff_ret. by rewrite insert_id.
  - simpl. unfold eff_bind.
    rewrite (check_rules_st_spec _ _ _ _ _ d e) by done.
    destruct (check_rules d field (map (rule_of pure) rules) e) as [e1|x];
      simpl.
    + destruct (IH (<[el := ORecord e1]> h) e1) as (e' & -> & He').
      { by rewrite lookup_insert_ne. }
      { by rewrite lookup_insert_eq. }
      exists e'. split; [|done]. by rewrite insert_insert_eq.
    + exists e. split; [|done]. by rewrite insert_id.
  - simpl. by apply IH.
Qed.

(** A call of [validate_st] is a run of [validate] on the contents of the
    two objects, with the report put at a new location. *)
Lemma validate_st_spec dl sl h d s :
  h !! dl = Some (ORecord d) → h !! sl = Some (OSchema s) →
  ∃ el e', validate_st code dl sl h
           = (completed (validate d (schema_of pure s)) el,
              <[el := ORecord e']> h)
           ∧ h !! el = None
           ∧ ∀ e'', validate d (schema_of pure s) = Normal e'' → e' = e''.
Proof.
  intros Hd Hs. set (el := fresh (dom h)).
  assert (Hfresh : h !! el = None).
  { apply not_elem_of_dom. apply is_fresh. }
  assert (dl ≠ el) by congruence. assert (sl ≠ el) by congruence.
  destruct (check_fields_st_spec dl el s (<[el := ORecord ∅]> h) d ∅)
    as (e' & Hrun & He'); [done | by rewrite lookup_insert_ne
                           | by rewrite lookup_insert_eq |].
  exists el, e'. split; [|done].
  unfold validate_st, eff_bind at 1, alloc. fold el.
  unfold eff_bind at 1, read_schema. rewrite lookup_insert_ne, Hs by done.
  unfold eff_bind. rewrite Hrun. rewrite insert_insert_eq. unfold validate.
  by destruct (check_fields d (schema_of pure s) ∅).
Qed.

End StoreTheory.

Lemma nameCode_pure : pure_code nameCode namePure.
Proof. intros f x data h d Hd. unfold nameCode. by rewrite Hd. Qed.

(** * The claims of the specification *)

(** Runs the inner loop on a field of a concrete object. *)
Ltac eval_first_failure :=
  match goal with
  | |- context [first_failure ?d ?f ?r] =>
    let v := eval vm_compute in (first_failure d f r) in
    let E := fresh in
    assert (E : first_failure d f r = v) by (vm_compute; reflexivity);
    rewrite E; clear E
  end.

(** [validate] on a schema with one key that is written out. *)
Ltac run_single_field :=
  unfold validate, nameSchema, websiteSchema, confirmPasswordSchema;
  rewrite check_fields_cons; eval_first_failure; reflexivity.

(** ** Sample runs *)

Example name_empty :
  validate {[ js "name" := js "" ]} nameSchema
  = Normal {[ js "name" := js "Имя обязательно" ]}.
Proof. run_single_field. Qed.

Example name_blank :
  validate {[ js "name" := js "   " ]} nameSchema
  = Normal {[ js "name" := js "Имя обязательно" ]}.
Proof. run_single_field. Qed.

Example name_short :
  validate {[ js "name" := js "A" ]} nameSchema
  = Normal {[ js "name" := js "Минимум 2 символа" ]}.
Proof. run_single_field. Qed.

Example name_valid : validate {[ js "name" := js "Al" ]} nameSchema = Normal ∅.
Proof. run_single_field. Qed.

Example email_pattern :
  map (λ s, test email_re (JString s))
      [js "a@b.c"; js "a@b"; js "a b@c.d"; js "@b.c"; js "a@b.c.d"]
  = [true; false; false; false; true].
Proof. by vm_compute. Qed.

Example url_pattern :
  map (λ s, test url_re (JString s))
      [js "https://example.com"; js "http://a.b"; js "not-a-url";
       js "http://localhost"; js "https://.com"; js "ftp://a.b";
       js "http://a.b/c d"]
  = [true; true; false; false; false; false; true].
Proof. by vm_compute. Qed.

Example patterns_on_undefined :
  (test lower_re JUndefined, test upper_re JUndefined, test url_re JUndefined)
  = (true, false, false).
Proof. by vm_compute. Qed.

(** Keys that [Object.prototype] has. On an empty object the website rule
    is given the function [Object] for [constructor], and the password rules
    a method of one parameter for [hasOwnProperty]; for [__proto__] the rule
    is given [Object.prototype], returns false, and nothing is reported. *)
Example key_constructor :
  validate ∅ [(js "constructor", Some websiteRules)]
  = Normal {[ js "constructor"
              := js "URL должен начинаться с http:// или https://" ]}.
Proof. run_single_field. Qed.

Example key_hasOwnProperty :
  validate ∅ [(js "hasOwnProperty", Some passwordRules)]
  = Normal {[ js "hasOwnProperty" := js "Минимум 8 символов" ]}.
Proof. run_single_field. Qed.

Example key_proto :
  first_failure ∅ (js "__proto__") websiteRules
  = Normal (Some (js "URL должен начинаться с http:// или https://"))
  ∧ validate ∅ [(js "__proto__", Some websiteRules)] = Normal ∅.
Proof. split; [by vm_compute | run_single_field]. Qed.

(** ** The error report of [validate] *)

Lemma nameSchema_returns s : predicates_return {[ js "name" := s ]} nameSchema.
Proof.
  intros f rs r Hf Hr. unfold nameSchema in Hf. each_member Hf.
  unfold nameRules in Hr. each_member Hr;
    unfold get; rewrite lookup_singleton_eq; by eexists.
Qed.

(** C1 fails for a field named [__proto__]. On an object and a schema with
    that key and the name rules, the first rule returns true and the second
    one false, and yet [validate] returns the empty report: the assignment
    [errors[field] = rule.message] adds no property [__proto__] to the object
    literal [errors]. No report of [validate] has an entry for [__proto__],
    whatever the rules of that key return. *)
Theorem validate_drops_proto_entry :
  let data : Data := {[ js "__proto__" := js "A" ]} in
  let schema : ValidationSchema := [(js "__proto__", Some nameRules)] in
  (∃ first second,
     nameRules !! 0 = Some first ∧ nameRules !! 1 = Some second
     ∧ check first (get data (js "__proto__")) data = Normal true
     ∧ check second (get data (js "__proto__")) data = Normal false
     ∧ message second = js "Минимум 2 символа")
  ∧ validate data schema = Normal ∅
  ∧ (∀ (data : Data) (schema : ValidationSchema) (report : Errors),
       validate data schema = Normal report →
       report !! js "__proto__" = None).
Proof.
  intros data schema. split; [|split].
  - eexists _, _. split; [reflexivity|]. split; [reflexivity|].
    split; [by vm_compute|]. split; [by vm_compute | reflexivity].
  - subst data schema. unfold validate. rewrite check_fields_cons.
    eval_first_failure. reflexivity.
  - intros d s report. apply check_fields_no_proto, lookup_empty.
Qed.

(** C2. A field all of whose rules return true has no key in the report of
    [validate], which covers a field with an empty rule list and a field
    that is no key of the schema; and when all rules of all fields return
    true the report is the empty mapping. *)
Theorem validate_omits_valid_fields
    (data : Data) (schema : ValidationSchema) (field : jsstring) :
  (∀ rules rule, (field, Some rules) ∈ schema → rule ∈ rules →
     check rule (get data field) data = Normal true) →
  (∀ errors, validate data schema = Normal errors → errors !! field = None)
  ∧ (predicates_return data schema →
     ∃ errors, validate data schema = Normal errors ∧ errors !! field = None)
  ∧ ((∀ g rules rule, (g, Some rules) ∈ schema → rule ∈ rules →
        check rule (get data g) data = Normal true) →
     validate data schema = Normal ∅).
Proof.
  intros Hok.
  assert (Hall : ∀ errors, validate data schema = Normal errors →
                   errors !! field = None).
  { intros errors Hv. rewrite <- (lookup_empty (M:=gmap jsstring) field).
    eapply check_fields_frame; [|done].
    intros rules Hin. apply first_failure_all_true. eauto. }
  split; [done|]. split.
  - intros Hret.
    destruct (check_fields_returns data schema ∅ Hret) as [errors Hv].
    exists errors. split; [done | by apply Hall].
  - apply check_fields_all_valid.
Qed.

Lemma validate_omits_valid_fields_witness :
  (∃ errors, validate {[ js "name" := js "Al" ]} nameSchema = Normal errors
             ∧ errors !! js "name" = None)
  ∧ validate {[ js "name" := js "Al" ]} nameSchema = Normal ∅.
Proof.
  assert (Hname : ∀ g rules rule, (g, Some rules) ∈ nameSchema → rule ∈ rules →
            check rule (get {[ js "name" := js "Al" ]} g)
              {[ js "name" := js "Al" ]} = Normal true).
  { intros g rs r Hg Hr. unfold nameSchema in Hg. each_member Hg.
    unfold nameRules in Hr. each_member Hr; by vm_compute. }
  destruct (validate_omits_valid_fields
              {[ js "name" := js "Al" ]} nameSchema (js "name"))
    as (_ & Hsome & Hempty).
  - intros rs r. apply Hname.
  - split; [apply Hsome, nameSchema_returns | apply Hempty, Hname].
Defined.

(** C3, as the specification states it, fails: with the key [name] missing,
    the name rules are called with [undefined], and [v.trim()] throws; with
    the key present and empty the same rules report that the name is
    required. So the two runs differ, and the first one fails. *)
Lemma validate_missing_key_counterexample :
  (validate ∅ nameSchema = Throw TypeError
   ∧ validate (<[js "name" := js ""]> ∅) nameSchema
     = Normal {[ js "name" := js "Имя обязательно" ]})
  ∧ ¬ (∀ (data : Data) (schema : ValidationSchema) (field : jsstring),
         field ∈ keys schema → data !! field = None →
         validate data schema = validate (<[field := js ""]> data) schema
         ∧ ∃ errors, validate data schema = Normal errors).
Proof.
  split; [split; [by vm_compute | run_single_field]|]. intros Hclaim.
  destruct (Hclaim ∅ nameSchema (js "name")) as [_ [errors Hret]].
  - by left.
  - apply lookup_empty.
  - by vm_compute in Hret.
Qed.

(** C3, amended. When a key of the schema is missing from the data and
    names no property of [Object.prototype], its predicates are called with
    [undefined], the result of the property read: replacing each of them by
    its answer on [undefined] does not change the outcome of [validate]. The
    outcome is the one for the data extended with the key mapped to the empty
    string whenever every predicate of the schema answers alike on both; and
    [validate] returns whenever the predicates return booleans on the data
    as given. *)
Theorem validate_missing_key
    (data : Data) (schema : ValidationSchema) (field : jsstring) :
  data !! field = None →
  field ∉ Object_prototype.*1 →
  validate data (pin_undefined field schema) = validate data schema
  ∧ ((∀ g rules rule, (g, Some rules) ∈ schema → rule ∈ rules →
        check rule (get data g) data
        = check rule (get (<[field := js ""]> data) g)
                     (<[field := js ""]> data)) →
     validate data schema = validate (<[field := js ""]> data) schema)
  ∧ (predicates_return data schema →
     ∃ errors, validate data schema = Normal errors).
Proof.
  intros Hmissing Hout. split; [|split].
  - by apply check_fields_pin_undefined, get_missing.
  - apply check_fields_ext.
  - apply check_fields_returns.
Qed.

Lemma validate_missing_key_witness :
  validate ∅ (pin_undefined (js "website") websiteSchema)
  = validate ∅ websiteSchema
  ∧ validate ∅ websiteSchema
    = validate (<[js "website" := js ""]> ∅) websiteSchema
  ∧ ∃ errors, validate ∅ websiteSchema = Normal errors.
Proof.
  assert (Hrule : ∀ g rules rule,
            (g, Some rules) ∈ websiteSchema → rule ∈ rules →
            check rule (get ∅ g) ∅ = Normal true
            ∧ check rule (get (<[js "website" := js ""]> ∅) g)
                (<[js "website" := js ""]> ∅) = Normal true).
  { intros g rs r Hg Hr. unfold websiteSchema in Hg. each_member Hg.
    unfold websiteRules in Hr. each_member Hr. by vm_compute. }
  destruct (validate_missing_key ∅ websiteSchema (js "website"))
    as (Hpin & Hsame & Hret).
  - apply lookup_empty.
  - intros Hin. unfold Object_prototype in Hin. each_member Hin.
  - split; [exact Hpin|]. split.
    + apply Hsame. intros g rs r Hg Hr.
      destruct (Hrule g rs r Hg Hr) as [-> ->]. done.
    + apply Hret. intros g rs r Hg Hr.
      destruct (Hrule g rs r Hg Hr) as [-> _]. by eexists.
Defined.

(** C5. Two schemas with the same keys and rule lists, whatever the order in
    which their keys are enumerated, give the same report (the same mapping,
    or no report in both runs when a predicate throws); and what the report
    holds for a key depends on the rule list of that key alone: two schemas
    that agree on the key agree on its lookup. *)
Theorem validate_key_order_irrelevant
    (data : Data) (s1 s2 : ValidationSchema) :
  NoDup (keys s1) → NoDup (keys s2) →
  (s1 ≡ₚ s2 → returned (validate data s1) = returned (validate data s2))
  ∧ (∀ field entry errors1 errors2,
       (field, entry) ∈ s1 → (field, entry) ∈ s2 →
       validate data s1 = Normal errors1 →
       validate data s2 = Normal errors2 →
       errors1 !! field = errors2 !! field).
Proof.
  intros Hnd1 Hnd2. split.
  - intros Hperm. by apply check_fields_perm.
  - intros field entry errors1 errors2 Hin1 Hin2 Hv1 Hv2.
    destruct (decide (field = js "__proto__")) as [->|Hfield].
    { rewrite (check_fields_no_proto _ _ _ _ (lookup_empty _) Hv1).
      by rewrite (check_fields_no_proto _ _ _ _ (lookup_empty _) Hv2). }
    destruct (check_fields_lookup _ _ _ _ _ _ Hnd1 Hfield Hin1 Hv1)
      as (o1 & Ho1 & ->).
    destruct (check_fields_lookup _ _ _ _ _ _ Hnd2 Hfield Hin2 Hv2)
      as (o2 & Ho2 & ->).
    destruct entry; [|by subst]. rewrite Ho1 in Ho2. by injection Ho2 as ->.
Qed.

Lemma validate_key_order_irrelevant_witness :
  returned (validate {[ js "name" := js "A" ]} nameFirst)
  = returned (validate {[ js "name" := js "A" ]} websiteFirst).
Proof.
  apply (validate_key_order_irrelevant {[ js "name" := js "A" ]}
           nameFirst websiteFirst).
  - distinct_keys.
  - distinct_keys.
  - apply perm_swap.
Defined.

(** ** Calls of [validate] and the store *)

(** C6. When the rule predicates are deterministic pure functions, two runs
    of [validate] on the same data and schema objects, one after the other,
    have deep-equal outcomes: both return, the two reports being different
    objects with the same properties, or both throw the same exception.
    Nothing the first run leaves in the store reaches the second. *)
Theorem validate_st_deterministic
    (code : fn → jsval → loc → eff bool)
    (pure : fn → jsval → Data → completion bool)
    (dl sl : loc) (h : store) (d : Data)
    (s : list (jsstring * option (list RuleObject))) :
  pure_code code pure →
  h !! dl = Some (ORecord d) → h !! sl = Some (OSchema s) →
  ∃ r1 h1 r2 h2,
    validate_st code dl sl h = (r1, h1)
    ∧ validate_st code dl sl h1 = (r2, h2)
    ∧ deep_equal r1 r2 h2
    ∧ (∀ l1 l2, r1 = Normal l1 → r2 = Normal l2 → l1 ≠ l2).
Proof.
  intros Hpure Hd Hs.
  destruct (validate_st_spec code pure Hpure dl sl h d s Hd Hs)
    as (l1 & e1 & Hrun1 & Hl1 & He1).
  set (h1 := <[l1 := ORecord e1]> h) in *.
  assert (Hd1 : h1 !! dl = Some (ORecord d)).
  { unfold h1. rewrite lookup_insert_ne; [done | congruence]. }
  assert (Hs1 : h1 !! sl = Some (OSchema s)).
  { unfold h1. rewrite lookup_insert_ne; [done | congruence]. }
  destruct (validate_st_spec code pure Hpure dl sl h1 d s Hd1 Hs1)
    as (l2 & e2 & Hrun2 & Hl2 & He2).
  assert (Hne : l1 ≠ l2).
  { intros <-. unfold h1 in Hl2. by rewrite lookup_insert_eq in Hl2. }
  eexists _, _, _, _. split; [exact Hrun1|]. split; [exact Hrun2|].
  destruct (validate d (schema_of pure s)) as [e|x] eqn:Hv; simpl.
  - pose proof (He1 e eq_refl). pose proof (He2 e eq_refl). subst e1 e2.
    split.
    + exists e. split; [|apply lookup_insert_eq].
      rewrite lookup_insert_ne by done. apply lookup_insert_eq.
    + by intros ?? [= <-] [= <-].
  - split; [done|]. by intros ?? [=].
Qed.

Lemma validate_st_deterministic_witness :
  ∃ r1 h1 r2 h2,
    validate_st nameCode 1 2 sampleStore = (r1, h1)
    ∧ validate_st nameCode 1 2 h1 = (r2, h2)
    ∧ deep_equal r1 r2 h2
    ∧ (∀ l1 l2, r1 = Normal l1 → r2 = Normal l2 → l1 ≠ l2).
Proof.
  apply (validate_st_deterministic nameCode namePure 1 2 sampleStore
           {[ js "name" := js "A" ]} [(js "name", Some nameRuleObjects)]).
  - apply nameCode_pure.
  - reflexivity.
  - reflexivity.
Defined.

(** C7. With rule predicates that are pure, a call of [validate] leaves the
    data object, the schema object and every other object of the store as
    they were; the report it returns is an object at a location that was
    unused before the call, so it is neither of the two arguments, and it
    holds the report. *)
Theorem validate_st_frame
    (code : fn → jsval → loc → eff bool)
    (pure : fn → jsval → Data → completion bool)
    (dl sl : loc) (h : store) (d : Data)
    (s : list (jsstring * option (list RuleObject))) :
  pure_code code pure →
  h !! dl = Some (ORecord d) → h !! sl = Some (OSchema s) →
  ∃ r h',
    validate_st code dl sl h = (r, h')
    ∧ h' !! dl = Some (ORecord d)
    ∧ h' !! sl = Some (OSchema s)
    ∧ (∀ l, is_Some (h !! l) → h' !! l = h !! l)
    ∧ (∀ el, r = Normal el →
         h !! el = None ∧ el ≠ dl ∧ el ≠ sl
         ∧ ∃ e, h' !! el = Some (ORecord e)
                ∧ validate d (schema_of pure s) = Normal e).
Proof.
  intros Hpure Hd Hs.
  destruct (validate_st_spec code pure Hpure dl sl h d s Hd Hs)
    as (el & e & Hrun & Hel & He).
  assert (Hold : ∀ l, is_Some (h !! l) → <[el := ORecord e]> h !! l = h !! l).
  { intros l [o Hl]. apply lookup_insert_ne. congruence. }
  eexists _, _. split; [exact Hrun|].
  split; [by rewrite Hold, Hd|]. split; [by rewrite Hold, Hs|].
  split; [done|]. intros el' Hr.
  destruct (validate d (schema_of pure s)) as [e'|x]; [|done].
  injection Hr as <-.
  split; [done|]. split; [congruence|]. split; [congruence|].
  exists e'. rewrite (He e') by done. split; [apply lookup_insert_eq | done].
Qed.

Lemma validate_st_frame_witness :
  ∃ r h',
    validate_st nameCode 1 2 sampleStore = (r, h')
    ∧ h' !! 1%positive = Some (ORecord {[ js "name" := js "A" ]})
    ∧ h' !! 2%positive = Some (OSchema [(js "name", Some nameRuleObjects)])
    ∧ (∀ l, is_Some (sampleStore !! l) → h' !! l = sampleStore !! l)
    ∧ (∀ el, r = Normal el →
         sampleStore !! el = None ∧ el ≠ 1%positive ∧ el ≠ 2%positive
         ∧ ∃ e, h' !! el = Some (ORecord e)
                ∧ validate {[ js "name" := js "A" ]}
                    (schema_of namePure [(js "name", Some nameRuleObjects)])
                  = Normal e).
Proof.
  apply (validate_st_frame nameCode namePure 1 2 sampleStore
           {[ js "name" := js "A" ]} [(js "name", Some nameRuleObjects)]).
  - apply nameCode_pure.
  - reflexivity.
  - reflexivity.
Defined.

(** ** The registration form *)

Section RegistrationClaims.

Context {number : Type} (Number : jsval → number) (isNaN : number → bool).
Context (num : nat → number) (ge le : number → number → bool).

Local Abbreviation schema :=
  (registrationSchema number Number isNaN num ge le).
Local Abbreviation handleSubmit :=
  (handleSubmit number Number isNaN num ge le).

(** C4. A submission attempt completes; it marks exactly the fields of the
    form data as touched, stores the report of [validate] on the form data
    and the registration schema as the errors, and sets the submit status to
    [success] when that report is empty; when the report is not empty the
    submit status is left as it was. From the [idle] status, the status
    becomes [success] if and only if the report is empty. *)
Theorem handleSubmit_gates_on_report (st : State) :
  ∃ validationErrors st',
    validate (record_of (formData st)) schema = Normal validationErrors
    ∧ handleSubmit st = (Normal (), st')
    ∧ (∀ field, field ∈ touched st' ↔ field ∈ dom (record_of (formData st)))
    ∧ errors st' = validationErrors
    ∧ formData st' = formData st
    ∧ (validationErrors = ∅ → submitStatus st' = success)
    ∧ (validationErrors ≠ ∅ → submitStatus st' = submitStatus st)
    ∧ (submitStatus st = idle →
       (submitStatus st' = success ↔ validationErrors = ∅)).
Proof.
  destruct (validate_registration_returns Number isNaN num ge le (formData st))
    as [validationErrors Hv].
  exists validationErrors. unfold handleSubmit.
  cbn [formData setTouched]. rewrite Hv.
  assert (Htouched : ∀ field,
            field ∈ (list_to_set (Object_keys (formData st)) : gset jsstring)
            ↔ field ∈ dom (record_of (formData st))).
  { intros field. unfold record_of, Object_keys.
    by rewrite dom_list_to_map_L. }
  destruct (0 <? size validationErrors) eqn:Hsize; eexists;
    (split; [done|]); (split; [reflexivity|]); cbn;
    (split; [done|]); (split; [done|]); (split; [done|]).
  - apply Nat.ltb_lt in Hsize.
    assert (validationErrors ≠ ∅).
    { intros ->. rewrite map_size_empty in Hsize. lia. }
    split; [done|]. split; [done|]. intros ->. by split.
  - apply Nat.ltb_ge in Hsize.
    assert (validationErrors = ∅) by (apply map_size_empty_inv; lia).
    split; [done|]. split; [done|]. done.
Qed.

(** C8. With password and confirmation both "Abcdefg1", whatever the other
    fields hold, the report of the registration schema has no entry for
    [confirmPassword]; with the confirmation changed to "different" it holds
    the mismatch message for it. The same holds for the confirmation rules
    alone on an object with just the two keys. *)
Theorem confirmPassword_rule (n e a w : jsstring) :
  let matching := {| name := n; email := e; password := js "Abcdefg1";
                     confirmPassword := js "Abcdefg1";
                     age := a; website := w |} in
  let differing := {| name := n; email := e; password := js "Abcdefg1";
                      confirmPassword := js "different";
                      age := a; website := w |} in
  (∃ errors, validate (record_of matching) schema = Normal errors
             ∧ errors !! js "confirmPassword" = None)
  ∧ (∃ errors, validate (record_of differing) schema = Normal errors
               ∧ errors !! js "confirmPassword"
                 = Some (js "Пароли не совпадают"))
  ∧ validate {[ js "password" := js "Abcdefg1";
                js "confirmPassword" := js "Abcdefg1" ]}
             confirmPasswordSchema = Normal ∅
  ∧ validate {[ js "password" := js "Abcdefg1";
                js "confirmPassword" := js "different" ]}
             confirmPasswordSchema
    = Normal {[ js "confirmPassword" := js "Пароли не совпадают" ]}.
Proof.
  intros matching differing. split; [|split; [|split]].
  - eapply validate_registration_lookup;
      [apply confirmPassword_in_schema | by vm_compute].
  - eapply validate_registration_lookup;
      [apply confirmPassword_in_schema | by vm_compute].
  - run_single_field.
  - run_single_field.
Qed.

(** C9. The report of the registration schema has no entry for [website]
    when the website is the empty string, holds the website message when it
    is "not-a-url", and has no entry when it is "https://example.com",
    whatever the other fields hold; and likewise for the website rule alone
    on an object with just that key. *)
Theorem website_rule (n e p c a : jsstring) :
  let form w := {| name := n; email := e; password := p;
                   confirmPassword := c; age := a; website := w |} in
  (∃ errors, validate (record_of (form (js ""))) schema = Normal errors
             ∧ errors !! js "website" = None)
  ∧ (∃ errors, validate (record_of (form (js "not-a-url"))) schema
               = Normal errors
               ∧ errors !! js "website"
                 = Some (js "URL должен начинаться с http:// или https://"))
  ∧ (∃ errors, validate (record_of (form (js "https://example.com"))) schema
               = Normal errors
               ∧ errors !! js "website" = None)
  ∧ validate {[ js "website" := js "" ]} websiteSchema = Normal ∅
  ∧ validate {[ js "website" := js "not-a-url" ]} websiteSchema
    = Normal {[ js "website"
                := js "URL должен начинаться с http:// или https://" ]}
  ∧ validate {[ js "website" := js "https://example.com" ]} websiteSchema
    = Normal ∅.
Proof.
  intros form. repeat apply conj; try run_single_field.
  all: eapply validate_registration_lookup;
      [apply website_in_schema | by vm_compute].
Qed.

(** C10. A website value made of "http://" or "https://" followed by
    characters none of which is a dot gets the website message, both from the
    registration schema, whatever the other fields hold, and from the website
    rule alone; and every value the pattern accepts consists of one of the two
    schemes, at least one character, a dot, at least one more character, and
    any rest. *)
Theorem website_rule_needs_dot (n e p c a scheme rest : jsstring) :
  scheme = js "http://" ∨ scheme = js "https://" →
  chr "." ∉ rest →
  (∃ errors,
     validate (record_of {| name := n; email := e; password := p;
                            confirmPassword := c; age := a;
                            website := scheme ++ rest |}) schema
     = Normal errors
     ∧ errors !! js "website"
       = Some (js "URL должен начинаться с http:// или https://"))
  ∧ validate {[ js "website" := scheme ++ rest ]} websiteSchema
    = Normal {[ js "website"
                := js "URL должен начинаться с http:// или https://" ]}
  ∧ (∀ v, test url_re (JString v) = true →
       ∃ scheme' a b tail,
         (scheme' = js "http://" ∨ scheme' = js "https://")
         ∧ v = scheme' ++ a ++ js "." ++ b ++ tail ∧ a ≠ [] ∧ b ≠ []).
Proof.
  intros Hscheme Hdot.
  pose proof (url_re_needs_dot scheme rest Hscheme Hdot) as Hfail.
  assert (Htruthy : ToBoolean (JString (scheme ++ rest)) = true).
  { by destruct Hscheme as [-> | ->]. }
  split; [|split; [|apply url_re_shape]].
  - eapply validate_registration_lookup; [apply website_in_schema|].
    unfold websiteRules. cbn [first_failure rule check message].
    change (get (record_of _) _) with (JString (scheme ++ rest)).
    by rewrite Htruthy, Hfail.
  - unfold validate, websiteSchema. rewrite check_fields_cons.
    unfold websiteRules. cbn [first_failure rule check message].
    unfold get. rewrite lookup_singleton_eq.
    by rewrite Htruthy, Hfail.
Qed.

End RegistrationClaims.

(** The age rules play no part in the report for [website]; any number
    type serves to run the schema on a sample form. *)
Lemma website_rule_needs_dot_witness :
  ∃ errors,
    validate (record_of localhostForm)
      (registrationSchema unit (λ _, ()) (λ _, false) (λ _, ())
         (λ _ _, true) (λ _ _, true))
    = Normal errors
    ∧ errors !! js "website"
      = Some (js "URL должен начинаться с http:// или https://").
Proof.
  refine (proj1 (website_rule_needs_dot
                   (λ _, ()) (λ _, false) (λ _, ()) (λ _ _, true) (λ _ _, true)
                   (js "Al") (js "al@example.com") (js "Abcdefg1")
                   (js "Abcdefg1") (js "20") (js "http://") (js "localhost")
                   _ _)).
  - by left.
  - intros H. each_member H.
Defined.
(** * Further properties of the code *)

(** Reads the cells of a state built by the setters. *)
Ltac cells :=
  cbn [fst snd formData errors touched submitStatus setErrors setTouched
       setFormData setSubmitStatus handleReset initialState].

(** ** [validate] on any schema *)

Section ValidateMore.

Implicit Types (data : Data) (errors : Errors) (field : jsstring).
Implicit Types (schema : ValidationSchema) (rules : list ValidationRule).

(** The rule at which the inner loop breaks returned false. *)
Lemma first_failure_Some data field rules m :
  first_failure data field rules = Normal (Some m) →
  ∃ rule, rule ∈ rules ∧ check rule (get data field) data = Normal false
          ∧ message rule = m.
Proof.
  induction rules as [|r rest IH]; simpl; [done|].
  destruct (check r (get data field) data) as [[|]|e] eqn:Hr; simpl.
  - intros (rule & Hin & H)%IH. exists rule. split; [by right | done].
  - intros [= <-]. exists r. split; [by left | done].
  - done.
Qed.

Lemma check_fields_sound data schema errors errors' field m :
  check_fields data schema errors = Normal errors' →
  errors' !! field = Some m →
  errors !! field = Some m
  ∨ ∃ rules rule, (field, Some rules) ∈ schema ∧ rule ∈ rules
                  ∧ check rule (get data field) data = Normal false
                  ∧ message rule = m.
Proof.
  revert errors. induction schema as [|[g [rules|]] rest IH]; intros errors.
  - intros [= ->]. by left.
  - rewrite check_fields_cons.
    destruct (first_failure data g rules) as [o|e] eqn:Ho; [|done]. simpl.
    intros Hrest Hm. destruct (IH _ Hrest Hm) as [Hold|(rs & r & Hin & H)].
    + destruct o as [m'|]; simpl in Hold; [|by left].
      apply lookup_assign_Some in Hold as [Hold|[-> ->]]; [by left|].
      apply first_failure_Some in Ho as (r & Hr & H).
      right. exists rules, r. split; [by left | done].
    + right. exists rs, r. split; [by right | done].
  - simpl. intros Hrest Hm.
    destruct (IH _ Hrest Hm) as [Hold|(rs & r & Hin & H)].
    + by left.
    + right. exists rs, r. split; [by right | done].
Qed.

Lemma record_failure_no_proto field o errors :
  errors !! js "__proto__" = None →
  record_failure field o errors !! js "__proto__" = None.
Proof. intros Hnone. destruct o; [by apply lookup_assign_proto | done]. Qed.

Lemma record_failure_union field o errors :
  errors !! js "__proto__" = None →
  record_failure field o errors = record_failure field o ∅ ∪ errors.
Proof.
  intros Hnone. destruct o as [m|]; simpl; [|by rewrite (left_id_L ∅ (∪))].
  destruct (decide (field = js "__proto__")) as [->|Hne].
  - rewrite !assign_proto by done. by rewrite (left_id_L ∅ (∪)).
  - rewrite !assign_insert by done.
    by rewrite insert_union_singleton_l, insert_empty.
Qed.

(** A run that starts from a report without [__proto__] adds to it what a
    run from the empty report finds. *)
Lemma check_fields_from data schema errors :
  errors !! js "__proto__" = None →
  check_fields data schema errors
  = found ← check_fields data schema ∅; Normal (found ∪ errors).
Proof.
  revert errors.
  induction schema as [|[g [rules|]] rest IH]; intros errors Hnone.
  - simpl. by rewrite (left_id_L ∅ (∪)).
  - rewrite !check_fields_cons.
    destruct (first_failure data g rules) as [o|e]; [|done]. simpl.
    rewrite (IH (record_failure g o errors)), (IH (record_failure g o ∅))
      by (by apply record_failure_no_proto).
    destruct (check_fields data rest ∅) as [found|e]; [|done]. simpl.
    f_equal. by rewrite (record_failure_union g o errors), (assoc_L (∪)).
  - simpl. by apply IH.
Qed.

(** A run reports keys of the schema only. *)
Lemma check_fields_dom data schema errors errors' field :
  check_fields data schema errors = Normal errors' →
  is_Some (errors' !! field) →
  is_Some (errors !! field) ∨ field ∈ keys schema.
Proof.
  revert errors. induction schema as [|[g [rules|]] rest IH]; intros errors.
  - intros [= ->]. by left.
  - rewrite check_fields_cons.
    destruct (first_failure data g rules) as [o|e]; [|done]. simpl.
    intros Hrest Hsome. destruct (IH _ Hrest Hsome) as [[m Hm]|Hin].
    + destruct o as [m'|]; simpl in Hm; [|by left; eexists].
      apply lookup_assign_Some in Hm as [Hm|[-> _]]; [by left; eexists|].
      right. left.
    + right. by right.
  - simpl. intros Hrest Hsome. destruct (IH _ Hrest Hsome) as [?|Hin].
    + by left.
    + right. by right.
Qed.

Lemma check_fields_app data s1 s2 errors :
  check_fields data (s1 ++ s2) errors
  = errors' ← check_fields data s1 errors; check_fields data s2 errors'.
Proof.
  revert errors. induction s1 as [|[g [rules|]] rest IH]; intros errors.
  - done.
  - rewrite <- app_comm_cons, !check_fields_cons.
    destruct (first_failure data g rules) as [o|e]; [|done]. simpl. apply IH.
  - simpl. apply IH.
Qed.

Lemma first_failure_Throw data field rules e :
  first_failure data field rules = Throw e →
  ∃ rule, rule ∈ rules ∧ check rule (get data field) data = Throw e.
Proof.
  induction rules as [|r rest IH]; simpl; [done|].
  destruct (check r (get data field) data) as [[|]|e'] eqn:Hr; simpl.
  - intros (rule & Hin & H)%IH. exists rule. split; [by right | done].
  - done.
  - intros [= ->]. exists r. split; [by left | done].
Qed.

Lemma check_fields_Throw data schema errors e :
  check_fields data schema errors = Throw e →
  ∃ field rules rule, (field, Some rules) ∈ schema ∧ rule ∈ rules
                      ∧ check rule (get data field) data = Throw e.
Proof.
  revert errors. induction schema as [|[g [rules|]] rest IH]; intros errors.
  - done.
  - rewrite check_fields_cons.
    destruct (first_failure data g rules) as [o|e'] eqn:Ho; simpl.
    + intros (f & rs & r & Hin & H)%IH. exists f, rs, r.
      split; [by right | done].
    + intros [= ->]. apply first_failure_Throw in Ho as (r & Hr & H).
      exists g, rules, r. split; [by left | done].
  - simpl. intros (f & rs & r & Hin & H)%IH. exists f, rs, r.
    split; [by right | done].
Qed.

Lemma first_failure_skip_true data field pre rules :
  (∀ r, r ∈ pre → check r (get data field) data = Normal true) →
  first_failure data field (pre ++ rules) = first_failure data field rules.
Proof.
  induction pre as [|r pre IH]; intros Hpre; simpl; [done|].
  rewrite (Hpre r) by left. simpl. apply IH. intros r' Hr'. apply Hpre.
  by right.
Qed.

Lemma first_failure_cut data field pre rule post post' :
  check rule (get data field) data = Normal false →
  first_failure data field (pre ++ rule :: post)
  = first_failure data field (pre ++ rule :: post').
Proof.
  intros Hfalse. induction pre as [|r pre IH]; simpl.
  - by rewrite Hfalse.
  - by rewrite IH.
Qed.

End ValidateMore.

(** X1. Every entry of a report of [validate] belongs to a key of the schema
    and holds the message of a rule of that key whose predicate returned
    false: nothing is reported for a field outside the schema or with a
    message of another field's rules. *)
Theorem validate_reports_only_failures
    (data : Data) (schema : ValidationSchema) (report : Errors)
    (field m : jsstring) :
  validate data schema = Normal report →
  report !! field = Some m →
  field ∈ keys schema
  ∧ ∃ rules rule, (field, Some rules) ∈ schema ∧ rule ∈ rules
                  ∧ check rule (get data field) data = Normal false
                  ∧ message rule = m.
Proof.
  intros Hv Hm.
  destruct (check_fields_sound _ _ _ _ _ _ Hv Hm)
    as [Hempty|(rules & rule & Hin & H)]; [done|].
  split; [|by exists rules, rule].
  by apply (list_elem_of_fmap_2 fst) in Hin.
Qed.

Lemma validate_reports_only_failures_witness :
  js "name" ∈ keys nameSchema
  ∧ ∃ rules rule, (js "name", Some rules) ∈ nameSchema ∧ rule ∈ rules
      ∧ check rule (get {[ js "name" := js "A" ]} (js "name"))
          {[ js "name" := js "A" ]} = Normal false
      ∧ message rule = js "Минимум 2 символа".
Proof.
  apply (validate_reports_only_failures {[ js "name" := js "A" ]} nameSchema
           {[ js "name" := js "Минимум 2 символа" ]}).
  - run_single_field.
  - apply lookup_singleton_eq.
Defined.

(** X2. Validating against a schema is validating against the two parts
    its keys are split into, one after the other: the two reports share no
    key, the report of the whole is their union, and an exception of the
    first part comes before anything of the second. *)
Theorem validate_concatenation (data : Data) (s1 s2 : ValidationSchema) :
  NoDup (keys (s1 ++ s2)) →
  validate data (s1 ++ s2)
  = (report1 ← validate data s1;
     report2 ← validate data s2;
     Normal (report2 ∪ report1))
  ∧ (∀ report1 report2,
       validate data s1 = Normal report1 →
       validate data s2 = Normal report2 →
       report1 ##ₘ report2).
Proof.
  intros Hnd. split.
  - unfold validate. rewrite check_fields_app.
    destruct (check_fields data s1 ∅) as [report1|e] eqn:Hv1; [|done]. simpl.
    apply check_fields_from.
    by apply (check_fields_no_proto _ _ _ _ (lookup_empty _) Hv1).
  - intros report1 report2 Hv1 Hv2. apply map_disjoint_spec.
    intros f m1 m2 Hm1 Hm2.
    destruct (check_fields_dom _ _ _ _ f Hv1) as [[? Hempty]|Hin1];
      [by eexists | by rewrite lookup_empty in Hempty |].
    destruct (check_fields_dom _ _ _ _ f Hv2) as [[? Hempty]|Hin2];
      [by eexists | by rewrite lookup_empty in Hempty |].
    unfold keys in Hnd. rewrite fmap_app in Hnd.
    apply NoDup_app in Hnd as (_ & Hdisj & _). by apply (Hdisj f).
Qed.

Lemma validate_concatenation_witness :
  validate {[ js "name" := js "A" ]} nameFirst
  = (report1 ← validate {[ js "name" := js "A" ]} nameSchema;
     report2 ← validate {[ js "name" := js "A" ]} websiteSchema;
     Normal (report2 ∪ report1)).
Proof.
  refine (proj1 (validate_concatenation {[ js "name" := js "A" ]}
                   nameSchema websiteSchema _)).
  distinct_keys.
Defined.

(** X3. The rules that follow a rule that returns false are not called: the
    outcome of [validate] is the same whatever rules follow it, throwing
    ones included. *)
Theorem validate_stops_at_first_failure
    (data : Data) (s1 s2 : ValidationSchema) (field : jsstring)
    (pre : list ValidationRule) (rule : ValidationRule)
    (post post' : list ValidationRule) :
  check rule (get data field) data = Normal false →
  validate data (s1 ++ (field, Some (pre ++ rule :: post)) :: s2)
  = validate data (s1 ++ (field, Some (pre ++ rule :: post')) :: s2).
Proof.
  intros Hfalse. unfold validate. rewrite !check_fields_app.
  destruct (check_fields data s1 ∅) as [report1|e]; [|done].
  cbn [mbind completion_bind]. rewrite !check_fields_cons.
  by rewrite (first_failure_cut data field pre rule post post').
Qed.

Lemma validate_stops_at_first_failure_witness :
  validate {[ js "name" := js "" ]} nameSchema
  = validate {[ js "name" := js "" ]} [(js "name", Some (take 1 nameRules))].
Proof.
  refine (validate_stops_at_first_failure {[ js "name" := js "" ]} [] []
            (js "name") [] _ (drop 1 nameRules) [] _).
  by vm_compute.
Defined.

(** X4. When the fields before a field return, the rules of the field before
    a rule return true and the rule throws, [validate] throws that
    exception; the fields and rules after it play no part. *)
Theorem validate_propagates_first_throw
    (data : Data) (s1 s2 : ValidationSchema) (report1 : Errors)
    (field : jsstring) (pre : list ValidationRule) (rule : ValidationRule)
    (post : list ValidationRule) (e : exn) :
  validate data s1 = Normal report1 →
  (∀ r, r ∈ pre → check r (get data field) data = Normal true) →
  check rule (get data field) data = Throw e →
  validate data (s1 ++ (field, Some (pre ++ rule :: post)) :: s2) = Throw e.
Proof.
  intros Hv1 Hpre Hthrow. unfold validate in *.
  rewrite check_fields_app, Hv1. cbn [mbind completion_bind].
  rewrite check_fields_cons, first_failure_skip_true by done.
  simpl. by rewrite Hthrow.
Qed.

Lemma validate_propagates_first_throw_witness :
  validate ∅ (websiteSchema ++ nameSchema) = Throw TypeError.
Proof.
  refine (validate_propagates_first_throw ∅ websiteSchema [] ∅
            (js "name") [] _ (drop 1 nameRules) TypeError _ _ _).
  - run_single_field.
  - intros r Hr. by apply elem_of_nil in Hr.
  - by vm_compute.
Defined.

(** X5. [validate] throws nothing of its own: an exception it throws is
    thrown by a predicate of the schema on the value of its field. *)
Theorem validate_throws_only_from_predicates
    (data : Data) (schema : ValidationSchema) (e : exn) :
  validate data schema = Throw e →
  ∃ field rules rule, (field, Some rules) ∈ schema ∧ rule ∈ rules
                      ∧ check rule (get data field) data = Throw e.
Proof. apply check_fields_Throw. Qed.

Lemma validate_throws_only_from_predicates_witness :
  ∃ field rules rule, (field, Some rules) ∈ nameSchema ∧ rule ∈ rules
                      ∧ check rule (get ∅ field) ∅ = Throw TypeError.
Proof.
  apply (validate_throws_only_from_predicates ∅ nameSchema TypeError).
  by vm_compute.
Defined.

(** X21. Whenever some rule of a field other than [__proto__] returns false,
    the report of [validate] holds for that field the message of the first
    such rule of the field's list, and so no other message: if [validate]
    returns, the lookup of the field is that message, and [validate] does
    return whenever the predicates of the schema return booleans. *)
Theorem validate_reports_first_failing_rule
    (data : Data) (schema : ValidationSchema) (field : jsstring)
    (rules : list ValidationRule) (i : nat) (rule : ValidationRule) :
  NoDup (keys schema) →
  field ≠ js "__proto__" →
  (field, Some rules) ∈ schema →
  rules !! i = Some rule →
  check rule (get data field) data = Normal false →
  (∀ j r, j < i → rules !! j = Some r →
     check r (get data field) data ≠ Normal false) →
  (∀ errors, validate data schema = Normal errors →
     errors !! field = Some (message rule))
  ∧ (predicates_return data schema →
     ∃ errors, validate data schema = Normal errors
               ∧ errors !! field = Some (message rule)).
Proof.
  intros Hnd Hfield Hin Hi Hfalse Hmin.
  assert (Hall : ∀ errors, validate data schema = Normal errors →
                   errors !! field = Some (message rule)).
  { intros errors Hv.
    destruct (check_fields_Normal_inv _ _ _ _ _ _ Hin Hv) as [o Ho].
    pose proof (first_failure_at _ _ _ _ _ _ Hi Hfalse Hmin Ho) as ->.
    by eapply check_fields_hit. }
  split; [done|]. intros Hret.
  destruct (check_fields_returns data schema ∅ Hret) as [errors Hv].
  exists errors. split; [done | by apply Hall].
Qed.

Lemma validate_reports_first_failing_rule_witness :
  ∃ errors, validate {[ js "name" := js "A" ]} nameSchema = Normal errors
            ∧ errors !! js "name" = Some (js "Минимум 2 символа").
Proof.
  refine (proj2 (validate_reports_first_failing_rule
                   {[ js "name" := js "A" ]} nameSchema (js "name")
                   nameRules 1 _ _ _ _ eq_refl _ _) _).
  - distinct_keys.
  - done.
  - by left.
  - reflexivity.
  - intros j r Hj Hr. destruct j as [|j]; [|lia].
    injection Hr as <-. by vm_compute.
  - apply nameSchema_returns.
Defined.

(** ** Patterns and [trim] *)

Section PatternsMore.

Lemma Matches_Star_any s : Matches (Star any) s.
Proof.
  induction s as [|c s IH]; [constructor|].
  apply (MStarCons _ [c] s); [by constructor | done].
Qed.

Lemma Matches_Star_Class p s :
  Matches (Star (Class p)) s ↔ Forall (λ c, p c = true) s.
Proof.
  split.
  - induction s as [|c s IH]; intros H; [constructor|].
    apply Matches_Star_inv in H as [?|(c' & s1 & s2 & Hs & H1 & H2)]; [done|].
    apply Matches_Class_inv in H1 as (c1 & [= -> ->] & Hp).
    injection Hs as -> ->. constructor; [done | by apply IH].
  - induction 1 as [|c s Hc _ IH]; [constructor|].
    apply (MStarCons _ [c] s); [by constructor | done].
Qed.

Lemma Matches_Plus_Class_iff p s :
  Matches (Plus (Class p)) s ↔ s ≠ [] ∧ Forall (λ c, p c = true) s.
Proof.
  split.
  - intros (s1 & s2 & -> & (c & -> & Hc)%Matches_Class_inv
                 & Hs%Matches_Star_Class)%Matches_Cat_inv.
    split; [done | by constructor].
  - intros [Hne H]. destruct H as [|c s Hc Hs]; [done|].
    apply (MCat _ _ [c] s); [by constructor | by apply Matches_Star_Class].
Qed.

Lemma Matches_lit_iff cs s : Matches (lit cs) s ↔ s = cs.
Proof.
  split; [apply Matches_lit|]. intros ->.
  induction cs as [|c rest IH]; [constructor|].
  destruct rest as [|c' rest'].
  - constructor. apply N.eqb_refl.
  - apply (MCat _ _ [c] (c' :: rest')); [|done].
    constructor. apply N.eqb_refl.
Qed.

(** A pattern that is one class, without anchors, looks for a character of
    the class. *)
Lemma test_class p s :
  test {| at_start := false; body := Class p; at_end := false |} (JString s)
  = existsb p s.
Proof.
  apply eq_true_iff_eq. unfold test. rewrite matches_Matches, existsb_exists.
  cbv [language at_start body at_end ToString]. split.
  - intros (s0 & s' & -> & _ & (s1 & s2 & -> & (c & -> & Hc)%Matches_Class_inv
                                  & _)%Matches_Cat_inv)%Matches_Cat_inv.
    exists c. split; [|done]. apply in_or_app. right. by left.
  - intros (c & Hin & Hc). apply in_split in Hin as (s0 & s2 & ->).
    apply MCat; [apply Matches_Star_any|].
    apply (MCat _ _ [c] s2); [by constructor | apply Matches_Star_any].
Qed.

End PatternsMore.

Lemma in_range_true lo hi c : in_range lo hi c = true ↔ (lo ≤ c ≤ hi)%N.
Proof. unfold in_range. rewrite andb_true_iff, !N.leb_le. done. Qed.

Lemma existsb_Exists {A} (p : A → bool) (P : A → Prop) l :
  (∀ x, p x = true ↔ P x) → existsb p l = true ↔ Exists P l.
Proof.
  intros Hp. rewrite existsb_exists, Exists_exists. split.
  - intros (x & Hin & Hx). exists x.
    split; [by apply list_elem_of_In | by apply Hp].
  - intros (x & Hin & Hx). exists x.
    split; [by apply list_elem_of_In | by apply Hp].
Qed.

(** *** [trim] *)

Lemma trimStart_spaces ws s :
  Forall (λ c, is_space c = true) ws → trimStart (ws ++ s) = trimStart s.
Proof. induction 1 as [|c ws Hc _ IH]; simpl; [done | by rewrite Hc]. Qed.

Lemma trimStart_nil s :
  trimStart s = [] → Forall (λ c, is_space c = true) s.
Proof.
  induction s as [|c s IH]; simpl; [constructor|].
  destruct (is_space c) eqn:Hc; [|done]. intros H. constructor; auto.
Qed.

Lemma trimStart_app s t :
  trimStart s ≠ [] → trimStart (s ++ t) = trimStart s ++ t.
Proof.
  induction s as [|c s IH]; simpl; [done|].
  destruct (is_space c); [apply IH | done].
Qed.

Lemma trimEnd_spaces s ws :
  Forall (λ c, is_space c = true) ws → trimEnd (s ++ ws) = trimEnd s.
Proof.
  intros Hws. unfold trimEnd. rewrite reverse_app, trimStart_spaces; [done|].
  by apply Forall_reverse.
Qed.

Lemma trimEnd_nil : trimEnd [] = [].
Proof. done. Qed.

(** White space around a string does not survive [trim]. *)
Lemma trim_padding ws1 s ws2 :
  Forall (λ c, is_space c = true) ws1 → Forall (λ c, is_space c = true) ws2 →
  trimEnd (trimStart (ws1 ++ s ++ ws2)) = trimEnd (trimStart s).
Proof.
  intros H1 H2. rewrite trimStart_spaces by done.
  destruct (decide (trimStart s = [])) as [Hs|Hs].
  - rewrite Hs. apply trimStart_nil in Hs.
    rewrite <- (app_nil_r (s ++ ws2)), (trimStart_spaces (s ++ ws2) []);
      [done | by apply Forall_app].
  - rewrite trimStart_app by done. by apply trimEnd_spaces.
Qed.

(** ** The rule lists of the table *)

Section RegistrationMore.

Context {number : Type} (Number : jsval → number) (isNaN : number → bool).
Context (num : nat → number) (ge le : number → number → bool).

Local Abbreviation schema :=
  (registrationSchema number Number isNaN num ge le).

Lemma name_in_schema : (js "name", Some nameRules) ∈ schema.
Proof. unfold registrationSchema. set_solver. Qed.

Lemma email_in_schema : (js "email", Some emailRules) ∈ schema.
Proof. unfold registrationSchema. set_solver. Qed.

Lemma password_in_schema : (js "password", Some passwordRules) ∈ schema.
Proof. unfold registrationSchema. set_solver. Qed.

Lemma name_verdict d :
  first_failure (record_of d) (js "name") nameRules
  = Normal
      (let t := trimEnd (trimStart (name d)) in
       if negb (0 <? length t) then Some (js "Имя обязательно")
       else if negb (2 <=? length t) then Some (js "Минимум 2 символа")
       else if negb (length t <=? 50) then Some (js "Максимум 50 символов")
       else None).
Proof.
  unfold nameRules. cbn [first_failure check rule message].
  change (get (record_of d) _) with (JString (name d)).
  cbn [trim mbind completion_bind mret completion_ret].
  destruct (0 <? length _); [|done].
  destruct (2 <=? length _); [|done].
  by destruct (length _ <=? 50).
Qed.

Lemma email_verdict d :
  first_failure (record_of d) (js "email") emailRules
  = Normal
      (let e := email d in
       if negb (0 <? length e) then Some (js "Email обязателен")
       else if negb (test email_re (JString e))
            then Some (js "Некорректный формат email")
       else None).
Proof.
  unfold emailRules. cbn [first_failure check rule message].
  change (get (record_of d) _) with (JString (email d)).
  cbn [length_of gt geq mbind completion_bind mret completion_ret].
  destruct (0 <? length (email d)); [|done].
  by destruct (test email_re (JString (email d))).
Qed.

Lemma password_verdict d :
  first_failure (record_of d) (js "password") passwordRules
  = Normal
      (let p := password d in
       if negb (0 <? length p) then Some (js "Пароль обязателен")
       else if negb (8 <=? length p) then Some (js "Минимум 8 символов")
       else if negb (test lower_re (JString p))
            then Some (js "Нужна хотя бы одна строчная буква")
       else if negb (test upper_re (JString p))
            then Some (js "Нужна хотя бы одна заглавная буква")
       else if negb (test digit_re (JString p))
            then Some (js "Нужна хотя бы одна цифра")
       else None).
Proof.
  unfold passwordRules.
  cbn [first_failure check rule message].
  change (get (record_of d) _) with (JString (password d)).
  cbn [length_of gt geq mbind completion_bind mret completion_ret].
  destruct (0 <? length (password d)); [|done].
  destruct (8 <=? length (password d)); [|done].
  destruct (test lower_re (JString (password d))); [|done].
  destruct (test upper_re (JString (password d))); [|done].
  by destruct (test digit_re (JString (password d))).
Qed.

Lemma confirmPassword_verdict d :
  first_failure (record_of d) (js "confirmPassword") confirmPasswordRules
  = Normal
      (let c := confirmPassword d in
       if negb (0 <? length c) then Some (js "Подтвердите пароль")
       else if negb (bool_decide (c = password d))
            then Some (js "Пароли не совпадают")
       else None).
Proof.
  unfold confirmPasswordRules. cbn [first_failure check rule message].
  change (get (record_of d) (js "confirmPassword"))
    with (JString (confirmPassword d)).
  change (get (record_of d) (js "password")) with (JString (password d)).
  cbn [length_of gt geq mbind completion_bind mret completion_ret].
  destruct (0 <? length (confirmPassword d)); [|done].
  unfold strict_eq.
  destruct (decide (confirmPassword d = password d)) as [->|Hne].
  - by rewrite !bool_decide_eq_true_2.
  - rewrite !bool_decide_eq_false_2; [done | done | congruence].
Qed.

Lemma website_verdict d :
  first_failure (record_of d) (js "website") websiteRules
  = Normal
      (let w := JString (website d) in
       if negb (negb (ToBoolean w) || test url_re w)
       then Some (js "URL должен начинаться с http:// или https://")
       else None).
Proof.
  unfold websiteRules. cbn [first_failure check rule message].
  change (get (record_of d) _) with (JString (website d)).
  cbn [mbind completion_bind mret completion_ret].
  by destruct (negb (ToBoolean (JString (website d))) || test url_re _).
Qed.

End RegistrationMore.

Lemma plain_class c :
  negb (is_space c || is_char (chr "@") c) = true ↔ plain c.
Proof.
  unfold plain, is_char. rewrite negb_true_iff, orb_false_iff, N.eqb_neq. done.
Qed.

Lemma email_re_iff e :
  test email_re (JString e) = true
  ↔ ∃ a b c, e = a ++ js "@" ++ b ++ js "." ++ c
             ∧ a ≠ [] ∧ b ≠ [] ∧ c ≠ []
             ∧ Forall plain a ∧ Forall plain b ∧ Forall plain c.
Proof.
  unfold test. rewrite matches_Matches.
  cbv [language email_re at_start body at_end seq ToString]. split.
  - intros H.
    apply Matches_Cat_inv in H as (s0 & s & -> & ->%Matches_Eps_inv & H).
    apply Matches_Cat_inv in H as (s1 & s2 & -> & H & ->%Matches_Eps_inv).
    apply Matches_Cat_inv in H as (a & s & -> & Ha%Matches_Plus_Class_iff & H).
    apply Matches_Cat_inv in H as (at_ & s1 & -> & ->%Matches_lit & H).
    apply Matches_Cat_inv in H as (b & s & -> & Hb%Matches_Plus_Class_iff & H).
    apply Matches_Cat_inv in H
      as (dot_ & c & -> & ->%Matches_lit & Hc%Matches_Plus_Class_iff).
    destruct Ha as [Ha Ha'], Hb as [Hb Hb'], Hc as [Hc Hc'].
    exists a, b, c. rewrite app_nil_r. simpl. split; [done|].
    repeat split; try done;
      (eapply Forall_impl; [eassumption | intros x; apply plain_class]).
  - intros (a & b & c & -> & Ha & Hb & Hc & Ha' & Hb' & Hc').
    assert (Hpart : ∀ s, s ≠ [] → Forall plain s →
              Matches (Plus (Class (λ c, negb (is_space c
                                               || is_char (chr "@") c)))) s).
    { intros s Hs Hp. apply Matches_Plus_Class_iff. split; [done|].
      eapply Forall_impl; [exact Hp | intros x; apply plain_class]. }
    apply (MCat _ _ [] _); [constructor|].
    rewrite <- (app_nil_r (a ++ _)). apply MCat; [|constructor].
    apply MCat; [by apply Hpart|].
    apply MCat; [by apply Matches_lit_iff|].
    apply MCat; [by apply Hpart|].
    apply MCat; [by apply Matches_lit_iff | by apply Hpart].
Qed.

Lemma url_re_iff v :
  test url_re (JString v) = true
  ↔ ∃ scheme a b tail,
      (scheme = js "http://" ∨ scheme = js "https://")
      ∧ v = scheme ++ a ++ js "." ++ b ++ tail
      ∧ a ≠ [] ∧ b ≠ []
      ∧ Forall (λ c, is_line_terminator c = false) a
      ∧ Forall (λ c, is_line_terminator c = false) b.
Proof.
  unfold test. rewrite matches_Matches.
  cbv [language url_re at_start body at_end seq ToString dot]. split.
  - intros H.
    apply Matches_Cat_inv in H as (s0 & s & -> & ->%Matches_Eps_inv & H).
    apply Matches_Cat_inv in H as (s1 & tail & -> & H & _).
    apply Matches_Cat_inv in H as (h & s & -> & ->%Matches_lit & H).
    apply Matches_Cat_inv in H as (o & s1 & -> & Ho & H).
    apply Matches_Cat_inv in H as (sep & s & -> & ->%Matches_lit & H).
    apply Matches_Cat_inv in H as (a & s1 & -> & Ha%Matches_Plus_Class_iff & H).
    apply Matches_Cat_inv in H
      as (d & b & -> & ->%Matches_lit & Hb%Matches_Plus_Class_iff).
    destruct Ha as [Ha Ha'], Hb as [Hb Hb'].
    assert (Hnl : ∀ l, Forall (λ c, negb (is_line_terminator c) = true) l →
                       Forall (λ c, is_line_terminator c = false) l).
    { intros l Hl. eapply Forall_impl; [exact Hl|].
      intros c. by rewrite negb_true_iff. }
    apply Matches_Alt_inv in Ho as [->%Matches_lit | ->%Matches_Eps_inv].
    + exists (js "https://"), a, b, tail. split; [by right|].
      split; [simpl; by rewrite <- !app_assoc|]. auto.
    + exists (js "http://"), a, b, tail. split; [by left|].
      split; [simpl; by rewrite <- !app_assoc|]. auto.
  - intros (scheme & a & b & tail & Hscheme & -> & Ha & Hb & Ha' & Hb').
    assert (Hrun : ∀ l, l ≠ [] → Forall (λ c, is_line_terminator c = false) l →
              Matches (Plus (Class (λ c, negb (is_line_terminator c)))) l).
    { intros l Hl Hp. apply Matches_Plus_Class_iff. split; [done|].
      eapply Forall_impl; [exact Hp|]. intros c. by rewrite negb_true_iff. }
    assert (Hbody : ∀ o, Matches (Opt (lit (js "s"))) o →
              Matches
                (Cat (Cat (lit (js "http"))
                        (Cat (Opt (lit (js "s")))
                           (Cat (lit (js "://"))
                              (Cat (Plus (Class (λ c, negb (is_line_terminator c))))
                                 (Cat (lit (js "."))
                                    (Plus (Class (λ c, negb (is_line_terminator c)))))))))
                   (Star any))
                ((js "http" ++ o ++ js "://" ++ a ++ js "." ++ b) ++ tail)).
    { intros o Ho. apply MCat; [|apply Matches_Star_any].
      apply MCat; [by apply Matches_lit_iff|].
      apply MCat; [done|].
      apply MCat; [by apply Matches_lit_iff|].
      apply MCat; [by apply Hrun|].
      apply MCat; [by apply Matches_lit_iff | by apply Hrun]. }
    apply (MCat _ _ [] _); [constructor|].
    destruct Hscheme as [-> | ->].
    + specialize (Hbody [] (MAltR _ _ _ MEps)).
      simpl in Hbody. simpl. by rewrite <- !app_assoc in Hbody.
    + specialize (Hbody (js "s")
                    (MAltL _ _ _ (proj2 (Matches_lit_iff _ _) eq_refl))).
      simpl in Hbody. simpl. by rewrite <- !app_assoc in Hbody.
Qed.

Section TableClaims.

Context {number : Type} (Number : jsval → number) (isNaN : number → bool).
Context (num : nat → number) (ge le : number → number → bool).

Local Abbreviation schema :=
  (registrationSchema number Number isNaN num ge le).

(** X6. The report of the registration schema has no entry for [password]
    exactly when the password has at least 8 code units and holds a
    character of [a-z], one of [A-Z] and one of [0-9]. *)
Theorem password_accepted_iff (d : RegistrationData) :
  ∃ report,
    validate (record_of d) schema = Normal report
    ∧ (report !! js "password" = None
       ↔ 8 ≤ length (password d)
         ∧ Exists (λ c, (chr "a" ≤ c ≤ chr "z")%N) (password d)
         ∧ Exists (λ c, (chr "A" ≤ c ≤ chr "Z")%N) (password d)
         ∧ Exists (λ c, (chr "0" ≤ c ≤ chr "9")%N) (password d)).
Proof.
  destruct (validate_registration_lookup Number isNaN num ge le d _ _ _
              (password_in_schema Number isNaN num ge le)
              (password_verdict d)) as (report & Hv & Hl).
  exists report. split; [done|]. rewrite Hl. cbv zeta.
  set (p := password d).
  assert (Hlo : test lower_re (JString p) = true
                ↔ Exists (λ c, (chr "a" ≤ c ≤ chr "z")%N) p).
  { unfold lower_re. rewrite test_class. apply existsb_Exists.
    intros c. apply in_range_true. }
  assert (Hup : test upper_re (JString p) = true
                ↔ Exists (λ c, (chr "A" ≤ c ≤ chr "Z")%N) p).
  { unfold upper_re. rewrite test_class. apply existsb_Exists.
    intros c. apply in_range_true. }
  assert (Hdi : test digit_re (JString p) = true
                ↔ Exists (λ c, (chr "0" ≤ c ≤ chr "9")%N) p).
  { unfold digit_re. rewrite test_class. apply existsb_Exists.
    intros c. apply in_range_true. }
  rewrite <- Hlo, <- Hup, <- Hdi. split.
  - destruct (0 <? length p); [|done].
    destruct (8 <=? length p) eqn:H8; [|done].
    destruct (test lower_re (JString p)); [|done].
    destruct (test upper_re (JString p)); [|done].
    destruct (test digit_re (JString p)); [|done].
    intros _. by apply Nat.leb_le in H8.
  - intros (H8 & -> & -> & ->).
    assert (H0 : 0 < length p) by lia.
    apply Nat.ltb_lt in H0 as ->. by apply Nat.leb_le in H8 as ->.
Qed.

(** X7. For every form: an empty confirmation is asked for, a confirmation
    that differs from the password is reported as a mismatch, and the report
    has no entry for [confirmPassword] exactly when the confirmation is not
    empty and equals the password. *)
Theorem confirmPassword_verdicts (d : RegistrationData) :
  ∃ report,
    validate (record_of d) schema = Normal report
    ∧ (confirmPassword d = [] →
       report !! js "confirmPassword" = Some (js "Подтвердите пароль"))
    ∧ (confirmPassword d ≠ [] → confirmPassword d ≠ password d →
       report !! js "confirmPassword" = Some (js "Пароли не совпадают"))
    ∧ (report !! js "confirmPassword" = None
       ↔ confirmPassword d ≠ [] ∧ confirmPassword d = password d).
Proof.
  destruct (validate_registration_lookup Number isNaN num ge le d _ _ _
              (confirmPassword_in_schema Number isNaN num ge le)
              (confirmPassword_verdict d)) as (report & Hv & Hl).
  exists report. split; [done|]. rewrite Hl. cbv zeta.
  destruct (confirmPassword d) as [|c cs] eqn:Hc; simpl.
  - split; [done|]. split; [done|]. split; [done | by intros []].
  - split; [done|]. case_bool_decide as Heq; simpl.
    + split; [done|]. done.
    + split; [done|]. split; [done | by intros []].
Qed.

(** X8. White space around the name does not count: a name padded with
    white space on either side gets the verdict of the name itself, and a
    name made of white space only is reported as required. *)
Theorem name_rule_trims (d : RegistrationData) (ws1 ws2 : jsstring) :
  Forall (λ c, is_space c = true) ws1 →
  Forall (λ c, is_space c = true) ws2 →
  ∃ report padded,
    validate (record_of d) schema = Normal report
    ∧ validate (record_of (with_value nameInput (ws1 ++ name d ++ ws2) d))
        schema = Normal padded
    ∧ padded !! js "name" = report !! js "name"
    ∧ (Forall (λ c, is_space c = true) (name d) →
       report !! js "name" = Some (js "Имя обязательно")).
Proof.
  intros H1 H2.
  destruct (validate_registration_lookup Number isNaN num ge le d _ _ _
              (name_in_schema Number isNaN num ge le)
              (name_verdict d)) as (report & Hv & Hl).
  destruct (validate_registration_lookup Number isNaN num ge le
              (with_value nameInput (ws1 ++ name d ++ ws2) d) _ _ _
              (name_in_schema Number isNaN num ge le)
              (name_verdict _)) as (padded & Hv' & Hl').
  exists report, padded. split; [done|]. split; [done|].
  rewrite Hl, Hl'. cbv zeta. cbn [with_value name].
  rewrite trim_padding by done. split; [done|].
  intros Hall.
  rewrite <- (app_nil_r (name d)), (trimStart_spaces (name d) []) by done.
  done.
Qed.
(** X9. The report of the registration schema has no entry for [email]
    exactly when the email is [a@b.c] for three non-empty runs [a], [b], [c]
    of characters that are neither white space nor [@] (so it holds one [@]
    and no white space). *)
Theorem email_accepted_iff (d : RegistrationData) :
  ∃ report,
    validate (record_of d) schema = Normal report
    ∧ (report !! js "email" = None
       ↔ ∃ a b c, email d = a ++ js "@" ++ b ++ js "." ++ c
                  ∧ a ≠ [] ∧ b ≠ [] ∧ c ≠ []
                  ∧ Forall plain a ∧ Forall plain b ∧ Forall plain c).
Proof.
  destruct (validate_registration_lookup Number isNaN num ge le d _ _ _
              (email_in_schema Number isNaN num ge le)
              (email_verdict d)) as (report & Hv & Hl).
  exists report. split; [done|]. rewrite Hl, <- email_re_iff. cbv zeta.
  destruct (test email_re (JString (email d))) eqn:Htest.
  - apply email_re_iff in Htest as (a & b & c & -> & Ha & _).
    destruct a; [done|]. simpl. done.
  - destruct (0 <? length (email d)); simpl; split; done.
Qed.

(** X10. The report of the registration schema has no entry for [website]
    exactly when the website is empty or is [http://] or [https://], a
    non-empty run without line terminators, a dot, another such run, and
    any rest. *)
Theorem website_accepted_iff (d : RegistrationData) :
  ∃ report,
    validate (record_of d) schema = Normal report
    ∧ (report !! js "website" = None
       ↔ website d = []
         ∨ ∃ scheme a b tail,
             (scheme = js "http://" ∨ scheme = js "https://")
             ∧ website d = scheme ++ a ++ js "." ++ b ++ tail
             ∧ a ≠ [] ∧ b ≠ []
             ∧ Forall (λ c, is_line_terminator c = false) a
             ∧ Forall (λ c, is_line_terminator c = false) b).
Proof.
  destruct (validate_registration_lookup Number isNaN num ge le d _ _ _
              (website_in_schema Number isNaN num ge le)
              (website_verdict d)) as (report & Hv & Hl).
  exists report. split; [done|]. rewrite Hl, <- url_re_iff. cbv zeta.
  destruct (website d) as [|c w]; simpl.
  - split; [by left | done].
  - destruct (test url_re (JString (c :: w))); simpl.
    + split; [by right | done].
    + split; [done | by intros [|]].
Qed.

End TableClaims.

(** ** The strength indicator *)

Section Strength.

(** The score of a password that is not empty, from the five tests. *)
Lemma passwordStrength_cons d c rest :
  password d = c :: rest →
  passwordStrength d
  = Nat.b2n (8 <=? length (c :: rest))
    + Nat.b2n (existsb (in_range (chr "a") (chr "z")) (c :: rest))
    + Nat.b2n (existsb (in_range (chr "A") (chr "Z")) (c :: rest))
    + Nat.b2n (existsb (in_range (chr "0") (chr "9")) (c :: rest))
    + Nat.b2n (existsb (λ c, negb (in_range (chr "a") (chr "z") c
                                   || in_range (chr "A") (chr "Z") c
                                   || in_range (chr "0") (chr "9") c))
                 (c :: rest)).
Proof.
  intros Hp. unfold passwordStrength. rewrite Hp. cbn [ToBoolean negb].
  unfold lower_re, upper_re, digit_re, special_re. rewrite !test_class.
  destruct (8 <=? _), (existsb (in_range (chr "a") (chr "z")) _),
    (existsb (in_range (chr "A") (chr "Z")) _),
    (existsb (in_range (chr "0") (chr "9")) _), (existsb _ _); reflexivity.
Qed.

(** X11. The password strength is at most 5, so the render always finds a
    label and a colour for it in [strengthLabels] and [strengthColors]. *)
Theorem passwordStrength_in_bounds (d : RegistrationData) :
  passwordStrength d ≤ 5
  ∧ is_Some (strengthLabels !! passwordStrength d)
  ∧ is_Some (strengthColors !! passwordStrength d).
Proof.
  assert (Hle : passwordStrength d ≤ 5).
  { destruct (password d) as [|c rest] eqn:Hp.
    - unfold passwordStrength. rewrite Hp. simpl. lia.
    - rewrite (passwordStrength_cons d c rest Hp).
      destruct (8 <=? _), (existsb (in_range (chr "a") (chr "z")) _),
        (existsb (in_range (chr "A") (chr "Z")) _),
        (existsb (in_range (chr "0") (chr "9")) _), (existsb _ _);
        simpl; lia. }
  split; [done|]. split; apply lookup_lt_is_Some; simpl; lia.
Qed.

(** X12. The strength is 0 exactly for the empty password; for any other
    password the label the indicator shows is a non-empty text. *)
Theorem passwordStrength_zero_iff_empty (d : RegistrationData) :
  (passwordStrength d = 0 ↔ password d = [])
  ∧ (password d ≠ [] →
     ∃ label, strengthLabels !! passwordStrength d = Some label
              ∧ label ≠ []).
Proof.
  assert (Hpos : password d ≠ [] → 1 ≤ passwordStrength d ≤ 5).
  { intros Hne. split; [|apply passwordStrength_in_bounds].
    destruct (password d) as [|c rest] eqn:Hp; [done|].
    rewrite (passwordStrength_cons d c rest Hp). cbn [existsb].
    destruct (in_range (chr "a") (chr "z") c),
      (in_range (chr "A") (chr "Z") c),
      (in_range (chr "0") (chr "9") c); cbn [negb orb Nat.b2n]; lia. }
  split.
  - split.
    + intros H0. destruct (decide (password d = [])) as [|Hne]; [done|].
      apply Hpos in Hne. lia.
    + intros Hp. unfold passwordStrength. by rewrite Hp.
  - intros [H1 H5]%Hpos.
    destruct (passwordStrength d) as [|[|[|[|[|[|n]]]]]]; try lia;
      eexists; (split; [reflexivity | done]).
Qed.

End Strength.

Section StrengthAndRules.

Context {number : Type} (Number : jsval → number) (isNaN : number → bool).
Context (num : nat → number) (ge le : number → number → bool).

Local Abbreviation schema :=
  (registrationSchema number Number isNaN num ge le).

(** X13. A password the registration rules accept has strength 4 or 5, and a
    password of strength 5 is accepted by the rules. *)
Theorem accepted_password_is_strong (d : RegistrationData) :
  ∃ report,
    validate (record_of d) schema = Normal report
    ∧ (report !! js "password" = None → 4 ≤ passwordStrength d)
    ∧ (passwordStrength d = 5 → report !! js "password" = None).
Proof.
  destruct (validate_registration_lookup Number isNaN num ge le d _ _ _
              (password_in_schema Number isNaN num ge le)
              (password_verdict d)) as (report & Hv & Hl).
  exists report. split; [done|]. rewrite Hl. cbv zeta.
  destruct (password d) as [|c rest] eqn:Hp.
  - split; [done|]. unfold passwordStrength. by rewrite Hp.
  - rewrite (passwordStrength_cons d c rest Hp).
    unfold lower_re, upper_re, digit_re. rewrite !test_class.
    change (0 <? length (c :: rest)) with true. cbn [negb].
    destruct (8 <=? _), (existsb (in_range (chr "a") (chr "z")) _),
      (existsb (in_range (chr "A") (chr "Z")) _),
      (existsb (in_range (chr "0") (chr "9")) _), (existsb _ _);
      cbn [negb Nat.b2n]; split; intros; first [done | lia].
Qed.

End StrengthAndRules.

(** ** The handlers and the states of the page *)

Section HandlersTheory.

Lemma input_name_inj i j : input_name i = input_name j → i = j.
Proof. destruct i, j; simpl; intros H; first [done | by simplify_eq]. Qed.

Lemma input_name_key i d : input_name i ∈ Object_keys d.
Proof.
  apply list_elem_of_In. destruct i; simpl; auto 10.
Qed.

Lemma get_input i d : get (record_of d) (input_name i) = JString (value_of i d).
Proof. by destruct i. Qed.

Lemma value_of_with_value i v d : value_of i (with_value i v d) = v.
Proof. by destruct i. Qed.

Lemma value_of_with_value_ne i j v d :
  i ≠ j → value_of j (with_value i v d) = value_of j d.
Proof. by destruct i, j. Qed.

(** [with_value] is the object with the one property replaced. *)
Lemma record_of_with_value i v d :
  record_of (with_value i v d) = <[input_name i := v]> (record_of d).
Proof.
  apply map_eq. intros k. unfold record_of.
  destruct i; cbn [entries with_value name email password confirmPassword
                     age website input_name list_to_map foldr fst snd];
    rewrite !lookup_insert; repeat case_decide; simplify_eq; done.
Qed.

(** The names of the inputs are none of [Object.prototype]. *)
Lemma inherited_input (i : Input) : inherited (input_name i) = JUndefined.
Proof. by destruct i. Qed.

(** What a report or the stored errors hold for an input: a string, or
    nothing. *)
Lemma get_report_input (report : Errors) (i : Input) :
  get report (input_name i)
  = match report !! input_name i with
    | Some m => JString m
    | None => JUndefined
    end.
Proof. unfold get. destruct (report !! _); [done | apply inherited_input]. Qed.

Lemma get_with_error (i : Input) (report prev : Errors) :
  get (with_error (input_name i) (get report (input_name i)) prev)
    (input_name i)
  = get report (input_name i).
Proof.
  rewrite !get_report_input. destruct (report !! input_name i) as [m|]; simpl.
  - by rewrite lookup_insert_eq.
  - by rewrite lookup_delete_eq.
Qed.

Lemma lookup_with_error_ne name v prev f :
  f ≠ name → with_error name v prev !! f = prev !! f.
Proof.
  intros Hne. destruct v; simpl;
    by rewrite ?lookup_delete_ne, ?lookup_insert_ne.
Qed.

Lemma lookup_with_error name v prev m :
  with_error name v prev !! name = Some m → v = JString m.
Proof.
  destruct v; simpl; rewrite ?lookup_delete_eq, ?lookup_insert_eq;
    congruence.
Qed.

End HandlersTheory.

Section HandlerRuns.

Context {number : Type} (Number : jsval → number) (isNaN : number → bool).
Context (num : nat → number) (ge le : number → number → bool).

Local Abbreviation schema :=
  (registrationSchema number Number isNaN num ge le).
Local Abbreviation handleSubmit :=
  (handleSubmit number Number isNaN num ge le).
Local Abbreviation handleChange :=
  (handleChange number Number isNaN num ge le).
Local Abbreviation handleBlur :=
  (handleBlur number Number isNaN num ge le).
Local Abbreviation dispatch := (dispatch number Number isNaN num ge le).
Local Abbreviation reachable := (reachable number Number isNaN num ge le).
Local Abbreviation configured := (configured number Number isNaN num ge le).

(** The handlers return, [validate] having a report for every form; the
    states they leave. *)
Lemma handleChange_run i value st :
  ∃ report,
    validate (record_of (with_value i value (formData st))) schema
    = Normal report
    ∧ handleChange i value st
      = (Normal (),
         let st' := setFormData (with_value i value (formData st)) st in
         if decide (input_name i ∈ touched st)
         then setErrors (with_error (input_name i)
                           (get report (input_name i)) (errors st)) st'
         else st').
Proof.
  destruct (validate_registration_returns Number isNaN num ge le
              (with_value i value (formData st))) as [report Hv].
  exists report. split; [done|]. unfold handleChange.
  cbn [formData setFormData errors touched]. rewrite Hv.
  by destruct (decide (input_name i ∈ touched st)).
Qed.

Lemma handleBlur_run i st :
  ∃ report,
    validate (record_of (formData st)) schema = Normal report
    ∧ handleBlur i st
      = (Normal (),
         setErrors (with_error (input_name i) (get report (input_name i))
                      (errors st))
           (setTouched ({[ input_name i ]} ∪ touched st) st)).
Proof.
  destruct (validate_registration_returns Number isNaN num ge le (formData st))
    as [report Hv].
  exists report. split; [done|]. unfold handleBlur.
  cbn [formData setTouched]. by rewrite Hv.
Qed.

Lemma handleSubmit_run st :
  ∃ report,
    validate (record_of (formData st)) schema = Normal report
    ∧ handleSubmit st
      = (Normal (),
         let st' := setErrors report
                      (setTouched (list_to_set (Object_keys (formData st)))
                         st) in
         if decide (report = ∅) then setSubmitStatus success st' else st').
Proof.
  destruct (validate_registration_returns Number isNaN num ge le (formData st))
    as [report Hv].
  exists report. split; [done|]. unfold handleSubmit.
  cbn [formData setTouched]. rewrite Hv.
  destruct (decide (report = ∅)) as [->|Hne].
  - by rewrite map_size_empty.
  - destruct (0 <? size report) eqn:Hsize; [done|].
    apply Nat.ltb_ge in Hsize. destruct Hne. apply map_size_empty_inv. lia.
Qed.

Lemma report_configured d report f m :
  validate (record_of d) schema = Normal report →
  report !! f = Some m → configured f m.
Proof.
  intros Hv Hm. destruct (check_fields_sound _ _ _ _ _ _ Hv Hm)
    as [Hempty|(rules & rule & Hin & Hr & _ & Hmsg)]; [done|].
  by exists rules, rule.
Qed.

Lemma with_error_configured name report prev :
  (∀ f m, report !! f = Some m → configured f m) →
  (∀ f m, prev !! f = Some m → configured f m) →
  ∀ f m, with_error name (get report name) prev !! f = Some m →
         configured f m.
Proof.
  intros Hreport Hprev f m. destruct (decide (f = name)) as [->|Hne].
  - intros Hm%lookup_with_error%get_string. by apply Hreport.
  - rewrite lookup_with_error_ne by done. apply Hprev.
Qed.

(** What every state of the page satisfies. *)
Lemma reachable_invariant st :
  reachable st →
  (∀ f m, errors st !! f = Some m → configured f m)
  ∧ (submitStatus st = success →
     validate (record_of (formData st)) schema = Normal ∅ ∧ errors st = ∅)
  ∧ touched st ⊆ list_to_set (Object_keys (formData st)).
Proof.
  induction 1 as [|st ev Hreach (Hconf & Hsucc & Htouched) Hen].
  - split; [done|]. split; [done|]. apply empty_subseteq.
  - destruct ev as [i value| i | |]; simpl in Hen; cbn [dispatch].
    + destruct (handleChange_run i value st) as (report & Hv & ->). cells.
      destruct (decide (input_name i ∈ touched st)); cells.
      * split; [|split; [by rewrite Hen|done]].
        apply with_error_configured; [|done].
        intros f m. by apply (report_configured _ _ _ _ Hv).
      * split; [done|]. split; [by rewrite Hen | done].
    + destruct (handleBlur_run i st) as (report & Hv & ->). cells.
      split; [|split; [by rewrite Hen|]].
      * apply with_error_configured; [|done].
        intros f m. by apply (report_configured _ _ _ _ Hv).
      * apply union_subseteq. split; [|done].
        apply singleton_subseteq_l. apply elem_of_list_to_set.
        apply input_name_key.
    + destruct (handleSubmit_run st) as (report & Hv & ->). cells.
      destruct (decide (report = ∅)) as [->|Hne]; cells.
      * split; [done|]. split; [done|]. done.
      * split; [intros f m; by apply (report_configured _ _ _ _ Hv)|].
        split; [by rewrite Hen | done].
    + split; [done|]. split; [done|]. apply empty_subseteq.
Qed.

(** X14. Leaving a field completes, marks that field as touched and makes
    [showError] of it what [validate] reports for it on the form data; the
    form data, the submit status, and the stored errors of the other fields
    stay as they were. *)
Theorem handleBlur_validates_field (i : Input) (st : State) :
  ∃ report st',
    validate (record_of (formData st)) schema = Normal report
    ∧ handleBlur i st = (Normal (), st')
    ∧ formData st' = formData st
    ∧ submitStatus st' = submitStatus st
    ∧ touched st' = {[ input_name i ]} ∪ touched st
    ∧ showError st' (input_name i) = get report (input_name i)
    ∧ (∀ f, f ≠ input_name i → errors st' !! f = errors st !! f).
Proof.
  destruct (handleBlur_run i st) as (report & Hv & Hrun).
  exists report. eexists. split; [done|]. split; [exact Hrun|]. cells.
  split; [done|]. split; [done|]. split; [done|]. split.
  - unfold showError. cells. rewrite decide_True.
    + apply get_with_error.
    + apply elem_of_union_l, elem_of_singleton. done.
  - intros f Hf. by apply lookup_with_error_ne.
Qed.

(** X15. Typing in a field completes and changes the value of that field
    only; the touched marks and the submit status stay; the stored errors of
    all other fields stay; the errors are untouched when the field was not
    touched, and when it was, [showError] of the field is what [validate]
    reports for it on the new form data. *)
Theorem handleChange_is_local (i : Input) (value : jsstring) (st : State) :
  ∃ st',
    handleChange i value st = (Normal (), st')
    ∧ value_of i (formData st') = value
    ∧ (∀ j, j ≠ i → value_of j (formData st') = value_of j (formData st))
    ∧ touched st' = touched st
    ∧ submitStatus st' = submitStatus st
    ∧ (∀ f, f ≠ input_name i → errors st' !! f = errors st !! f)
    ∧ (input_name i ∉ touched st → errors st' = errors st)
    ∧ (input_name i ∈ touched st →
       ∃ report, validate (record_of (formData st')) schema = Normal report
                 ∧ showError st' (input_name i) = get report (input_name i)).
Proof.
  destruct (handleChange_run i value st) as (report & Hv & Hrun).
  eexists. split; [exact Hrun|]. cells.
  destruct (decide (input_name i ∈ touched st)) as [Hin|Hout]; cells.
  - split; [apply value_of_with_value|].
    split; [intros j Hj; by apply value_of_with_value_ne|].
    split; [done|]. split; [done|].
    split; [intros f Hf; by apply lookup_with_error_ne|].
    split; [done|]. intros _. exists report. split; [done|].
    unfold showError. cells. rewrite decide_True by done. apply get_with_error.
  - split; [apply value_of_with_value|].
    split; [intros j Hj; by apply value_of_with_value_ne|].
    repeat (split; [done|]). done.
Qed.

(** X16. The error of [confirmPassword] is not refreshed when the password
    changes: with a touched, non-empty confirmation showing no error, typing
    a password that differs from it leaves [showError] of the confirmation
    empty, although [validate] on the new form data reports the mismatch. *)
Theorem password_change_leaves_confirmation_stale
    (value : jsstring) (st : State) :
  js "confirmPassword" ∈ touched st →
  errors st !! js "confirmPassword" = None →
  confirmPassword (formData st) ≠ [] →
  value ≠ confirmPassword (formData st) →
  ∃ st' report,
    handleChange passwordInput value st = (Normal (), st')
    ∧ showError st' (js "confirmPassword") = JUndefined
    ∧ validate (record_of (formData st')) schema = Normal report
    ∧ report !! js "confirmPassword" = Some (js "Пароли не совпадают").
Proof.
  intros Htouched Hnone Hc Hne.
  destruct (handleChange_run passwordInput value st) as (report0 & Hv0 & Hrun).
  set (d' := with_value passwordInput value (formData st)) in *.
  destruct (validate_registration_lookup Number isNaN num ge le d' _ _ _
              (confirmPassword_in_schema Number isNaN num ge le)
              (confirmPassword_verdict d')) as (report & Hv & Hl).
  eexists. exists report. split; [exact Hrun|].
  split; [|split].
  - unfold showError.
    destruct (decide (input_name passwordInput ∈ touched st)); cells;
      rewrite decide_True by done; unfold get.
    + rewrite lookup_with_error_ne by done. by rewrite Hnone.
    + by rewrite Hnone.
  - by destruct (decide (input_name passwordInput ∈ touched st)).
  - rewrite Hl. cbv zeta. subst d'. cbn [with_value confirmPassword password].
    destruct (confirmPassword (formData st)) as [|c cs]; [done|]. simpl.
    rewrite bool_decide_eq_false_2 by congruence. done.
Qed.

(** X17. After a submission attempt [showError] of each of the six fields is
    what [validate] reports for it on the form data. *)
Theorem handleSubmit_shows_all_errors (i : Input) (st : State) :
  ∃ report st',
    validate (record_of (formData st)) schema = Normal report
    ∧ handleSubmit st = (Normal (), st')
    ∧ showError st' (input_name i) = get report (input_name i).
Proof.
  destruct (handleSubmit_run st) as (report & Hv & Hrun).
  exists report. eexists. split; [done|]. split; [exact Hrun|].
  unfold showError. cells.
  destruct (decide (report = ∅)); cells;
    (rewrite decide_True;
       [done | apply elem_of_list_to_set; apply input_name_key]).
Qed.

(** X18. Submitting again without a change in between leaves the state of
    the first submission. *)
Theorem handleSubmit_idempotent (st : State) :
  handleSubmit (handleSubmit st).2 = handleSubmit st.
Proof.
  destruct (handleSubmit_run st) as (report & Hv & Hrun).
  rewrite Hrun. cbn [snd].
  match goal with |- handleSubmit ?s = _ => set (st' := s) end.
  destruct (handleSubmit_run st') as (report' & Hv' & Hrun').
  assert (Hdata : formData st' = formData st).
  { subst st'. by destruct (decide (report = ∅)). }
  rewrite Hdata, Hv in Hv'. injection Hv' as <-.
  rewrite Hrun', Hdata. subst st'. cells.
  destruct (decide (report = ∅)); reflexivity.
Qed.

(** X19. In every state the page can reach, the success status is on only
    when the form data pass every rule of the registration schema, and no
    error is stored then: the success view shows validated data only. *)
Theorem success_view_shows_valid_data (st : State) :
  reachable st →
  submitStatus st = success →
  validate (record_of (formData st)) schema = Normal ∅ ∧ errors st = ∅.
Proof. intros Hreach. by apply reachable_invariant. Qed.

(** X20. In every state the page can reach, a message [showError] returns
    for a field is the message of one of the rules of that field in the
    registration schema, and the field is one of the six of the form. *)
Theorem shown_errors_are_configured (st : State) (f m : jsstring) :
  reachable st →
  showError st f = JString m →
  f ∈ Object_keys (formData st)
  ∧ ∃ rules rule, (f, Some rules) ∈ schema ∧ rule ∈ rules
                  ∧ message rule = m.
Proof.
  intros (Hconf & _ & Htouched)%reachable_invariant. unfold showError.
  destruct (decide (f ∈ touched st)) as [Hin|]; [|done].
  intros Hm%get_string. split.
  - apply Htouched in Hin. by apply elem_of_list_to_set in Hin.
  - by apply Hconf.
Qed.

End HandlerRuns.

Lemma name_rule_trims_witness :
  ∃ report padded,
    validate (record_of localhostForm) unitSchema = Normal report
    ∧ validate (record_of (with_value nameInput
                             (js " " ++ name localhostForm ++ js "  ")
                             localhostForm)) unitSchema = Normal padded
    ∧ padded !! js "name" = report !! js "name"
    ∧ (Forall (λ c, is_space c = true) (name localhostForm) →
       report !! js "name" = Some (js "Имя обязательно")).
Proof.
  apply (name_rule_trims (λ _, ()) (λ _, false) (λ _, ()) (λ _ _, true)
           (λ _ _, true) localhostForm (js " ") (js "  "));
    repeat constructor.
Defined.

Lemma password_change_leaves_confirmation_stale_witness :
  ∃ st' report,
    handleChange unit (λ _, ()) (λ _, false) (λ _, ()) (λ _ _, true)
      (λ _ _, true) passwordInput (js "Other123") matchedState
    = (Normal (), st')
    ∧ showError st' (js "confirmPassword") = JUndefined
    ∧ validate (record_of (formData st')) unitSchema = Normal report
    ∧ report !! js "confirmPassword" = Some (js "Пароли не совпадают").
Proof.
  apply (password_change_leaves_confirmation_stale (λ _, ()) (λ _, false)
           (λ _, ()) (λ _ _, true) (λ _ _, true) (js "Other123") matchedState).
  - unfold matchedState. cbn [touched]. by apply elem_of_singleton.
  - apply lookup_empty.
  - done.
  - done.
Defined.

Lemma reachable_typedState :
  reachable unit (λ _, ()) (λ _, false) (λ _, ()) (λ _ _, true) (λ _ _, true)
    typedState.
Proof.
  unfold typedState, play.
  repeat (apply reachable_step; [|by vm_compute]). constructor.
Qed.

Lemma success_view_shows_valid_data_witness :
  validate (record_of (formData submittedState)) unitSchema = Normal ∅
  ∧ errors submittedState = ∅.
Proof.
  apply (success_view_shows_valid_data (λ _, ()) (λ _, false) (λ _, ())
           (λ _ _, true) (λ _ _, true) submittedState).
  - unfold submittedState, play. apply reachable_step.
    + apply reachable_typedState.
    + by vm_compute.
  - by vm_compute.
Defined.

Lemma shown_errors_are_configured_witness :
  js "name" ∈ Object_keys (formData blurredState)
  ∧ ∃ rules rule, (js "name", Some rules) ∈ unitSchema ∧ rule ∈ rules
                  ∧ message rule = js "Имя обязательно".
Proof.
  apply (shown_errors_are_configured (λ _, ()) (λ _, false) (λ _, ())
           (λ _ _, true) (λ _ _, true) blurredState).
  - unfold blurredState, play. apply reachable_step; [constructor|done].
  - by vm_compute.
Defined.
